(** * cascadia: CSS selectors over html.Node trees

    A shallow embedding of [selector.go]: the predicate constructors
    ([typeSelector], the attribute selectors, [intersectionSelector],
    [negatedSelector], [nthChildSelector]), the traversal [MatchAll] and the
    entry point [Compile], followed by the properties of the specification
    that concern them.

    Conventions of the embedding.
    - A Go [string] is its sequence of bytes, [list ascii].
    - A Go [int] is a [Z] kept inside the range of the platform's word
      ([Int32] or [Int64]); every arithmetic operation wraps.
    - A pointer to an [html.Node] is [option loc] ([None] is [nil]); the
      nodes live in a store [gmap loc Node], so that pointer identity,
      parent links and inconsistent trees can be expressed.
    - A run-time panic (nil dereference, index out of range, division by
      zero) is the outcome [Panic]; loops that are not structurally
      recursive carry fuel, and running out of it is [OutOfFuel]. *)

From Stdlib Require Import ZArith Ascii String.
From stdpp Require Import base option list gmap strings.

Local Open Scope Z_scope.

(** ** Outcomes: a value, a panic, or exhausted fuel *)

Inductive outcome (A : Type) : Type :=
| Done (a : A)
| Panic
| OutOfFuel.
Arguments Done {A} a.
Arguments Panic {A}.
Arguments OutOfFuel {A}.

#[global] Instance outcome_ret : MRet outcome := λ A a, Done a.
#[global] Instance outcome_bind : MBind outcome := λ A B f m,
  match m with
  | Done a => f a
  | Panic => Panic
  | OutOfFuel => OutOfFuel
  end.

(** A Go expression that panics when an [option] is empty. *)
Definition orPanic {A} (o : option A) : outcome A :=
  match o with
  | Some a => Done a
  | None => Panic
  end.

(** Control flow of a loop body: [return r] or fall through to the next
    iteration. *)
Inductive ctl (R : Type) : Type :=
| Return (r : R)
| Continue.
Arguments Return {R} r.
Arguments Continue {R}.

(** [for _, a := range l { body a }; return dflt]. *)
Fixpoint rangeLoop {A R} (body : A → outcome (ctl R)) (l : list A) (dflt : R)
  : outcome R :=
  match l with
  | [] => Done dflt
  | a :: l' =>
      c ← body a;
      match c with
      | Return r => Done r
      | Continue => rangeLoop body l' dflt
      end
  end.

(** ** Go's [int] *)

Inductive IntSize : Set := Int32 | Int64.

Definition intBits (W : IntSize) : Z :=
  match W with
  | Int32 => 32
  | Int64 => 64
  end.

Definition minInt (W : IntSize) : Z := - 2 ^ (intBits W - 1).
Definition maxInt (W : IntSize) : Z := 2 ^ (intBits W - 1) - 1.

Definition inInt (W : IntSize) (x : Z) : Prop := minInt W <= x <= maxInt W.

(** Two's-complement wrap-around into the range of [int]. *)
Definition wrap (W : IntSize) (x : Z) : Z :=
  (x - minInt W) mod 2 ^ intBits W + minInt W.

Definition intAdd (W : IntSize) (x y : Z) : Z := wrap W (x + y).
Definition intSub (W : IntSize) (x y : Z) : Z := wrap W (x - y).

(** [x / y]: truncated towards zero, panics on a zero divisor; the one
    overflowing case, [minInt / -1], wraps to [minInt]. *)
Definition intQuo (W : IntSize) (x y : Z) : outcome Z :=
  if decide (y = 0) then Panic else Done (wrap W (Z.quot x y)).

(** [x % y]: the remainder of the truncated division. *)
Definition intRem (W : IntSize) (x y : Z) : outcome Z :=
  if decide (y = 0) then Panic else Done (Z.rem x y).

(** ** Go's [string] *)

Abbreviation gostring := (list ascii).

(** A string literal as a Go string. *)
Definition str (s : string) : gostring := list_ascii_of_string s.

(** [len(s)], for strings and slices. *)
Definition len {A} (s : list A) : Z := Z.of_nat (length s).

(** [s[i]] *)
Definition index (s : gostring) (i : Z) : outcome ascii :=
  if decide (0 <= i < len s) then orPanic (s !! Z.to_nat i) else Panic.

(** [s[:i]] *)
Definition sliceTo (s : gostring) (i : Z) : outcome gostring :=
  if decide (0 <= i <= len s) then Done (take (Z.to_nat i) s) else Panic.

(** [s[i:]] *)
Definition sliceFrom (s : gostring) (i : Z) : outcome gostring :=
  if decide (0 <= i <= len s) then Done (drop (Z.to_nat i) s) else Panic.

(** [strings.IndexAny(s, chars)] for ASCII [chars]: the index of the first
    byte of [s] that occurs in [chars], or -1. *)
Fixpoint IndexAny (s chars : gostring) : Z :=
  match s with
  | [] => -1
  | c :: s' =>
      if bool_decide (c ∈ chars) then 0
      else let i := IndexAny s' chars in
           if decide (i = -1) then -1 else i + 1
  end.

(** [strings.HasPrefix(s, prefix)] *)
Definition HasPrefix (s prefix : gostring) : bool :=
  bool_decide (length prefix ≤ length s)%nat
  && bool_decide (take (length prefix) s = prefix).

(** [strings.HasSuffix(s, suffix)] *)
Definition HasSuffix (s suffix : gostring) : bool :=
  bool_decide (length suffix ≤ length s)%nat
  && bool_decide (drop (length s - length suffix) s = suffix).

(** [strings.Index(s, sep)]: the index of the first occurrence of [sep] in
    [s], or -1. *)
Fixpoint Index (s sep : gostring) : Z :=
  if HasPrefix s sep then 0
  else match s with
       | [] => -1
       | _ :: s' =>
           let i := Index s' sep in
           if decide (i = -1) then -1 else i + 1
       end.

(** [strings.Contains(s, substr)] *)
Definition Contains (s substr : gostring) : bool :=
  bool_decide (Index s substr ≠ -1).

(** ** The node model of package [html] *)

Inductive NodeType : Set :=
| ErrorNode
| TextNode
| DocumentNode
| ElementNode
| CommentNode
| DoctypeNode.

#[global] Instance NodeType_eq_dec : EqDecision NodeType.
Proof. solve_decision. Defined.

Record Attribute : Set := mkAttribute { Key : gostring; Val : gostring }.

#[global] Instance Attribute_eq_dec : EqDecision Attribute.
Proof. solve_decision. Defined.

Abbreviation loc := positive.
Abbreviation ptr := (option loc).

Record Node : Set := mkNode {
  Parent : ptr;
  Child : list ptr;
  Type_ : NodeType;
  Data : gostring;
  Attr : list Attribute
}.

(** [*n]: dereferencing [nil] (or a dangling pointer, which Go excludes)
    panics. *)
Definition deref (h : gmap loc Node) (n : ptr) : outcome Node :=
  orPanic (n ≫= (h !!.)).

(** ** Selectors *)

(** [type Selector func(n) bool], a predicate on node pointers; the store
    is an explicit argument. *)
Definition Selector : Type := gmap loc Node → ptr → outcome bool.

(** *** [toLowerASCII] *)

Definition isUpper (c : ascii) : bool :=
  (N_of_ascii "A" <=? N_of_ascii c)%N && (N_of_ascii c <=? N_of_ascii "Z")%N.

(** Byte addition, modulo 256. *)
Definition byteAdd (c d : ascii) : ascii :=
  ascii_of_N ((N_of_ascii c + N_of_ascii d) mod 256).

(** ['a' - 'A'] *)
Definition caseGap : ascii :=
  ascii_of_N ((N_of_ascii "a" - N_of_ascii "A") mod 256).

(** The loop of [toLowerASCII]: [k] iterations remain, [i] is the index,
    [b] is the copy, [None] while it is still [nil]. *)
Fixpoint toLowerASCII_loop (k : nat) (i : nat) (s : gostring)
  (b : option gostring) : option gostring :=
  match k with
  | O => b
  | S k' =>
      let b' :=
        match s !! i with
        | Some c =>
            if isUpper c then
              let b0 := match b with
                        | None => s
                        | Some b0 => b0
                        end in
              Some (<[i := byteAdd c caseGap]> b0)
            else b
        | None => b
        end in
      toLowerASCII_loop k' (S i) s b'
  end.

Definition toLowerASCII (s : gostring) : gostring :=
  match toLowerASCII_loop (length s) 0 s None with
  | None => s
  | Some b => b
  end.

(** *** [typeSelector] *)

Definition typeSelector (tag : gostring) : Selector :=
  let tag := toLowerASCII tag in
  λ h n,
    node ← deref h n;
    Done (bool_decide (Type_ node = ElementNode)
          && bool_decide (Data node = tag)).

(** *** Attribute selectors *)

Definition attributeExistsSelector (key : gostring) : Selector :=
  let key := toLowerASCII key in
  λ h n,
    node ← deref h n;
    rangeLoop (λ a,
      if bool_decide (Key a = key) then Done (Return true)
      else Done Continue) (Attr node) false.

Definition attributeEqualsSelector (key val : gostring) : Selector :=
  let key := toLowerASCII key in
  λ h n,
    node ← deref h n;
    rangeLoop (λ a,
      if bool_decide (Key a = key)
      then Done (Return (bool_decide (Val a = val)))
      else Done Continue) (Attr node) false.

(** The five separators of [attributeIncludesSelector]: space, tab, carriage
    return, line feed, form feed. *)
Definition whitespace : gostring :=
  [ascii_of_nat 32; ascii_of_nat 9; ascii_of_nat 13; ascii_of_nat 10;
   ascii_of_nat 12].

(** The inner loop [for s != "" { ... }] of [attributeIncludesSelector];
    every iteration shortens [s], so [length s] iterations are enough. *)
Fixpoint includesLoop (fuel : nat) (s val : gostring) : outcome (ctl bool) :=
  if bool_decide (s = []) then Done Continue
  else
    match fuel with
    | O => OutOfFuel
    | S fuel' =>
        let i := IndexAny s whitespace in
        if decide (i = -1) then Done (Return (bool_decide (s = val)))
        else
          tok ← sliceTo s i;
          if bool_decide (tok = val) then Done (Return true)
          else
            s' ← sliceFrom s (i + 1);
            includesLoop fuel' s' val
    end.

Definition attributeIncludesSelector (key val : gostring) : Selector :=
  let key := toLowerASCII key in
  λ h n,
    node ← deref h n;
    rangeLoop (λ a,
      if bool_decide (Key a = key)
      then includesLoop (length (Val a)) (Val a) val
      else Done Continue) (Attr node) false.

Definition attributeDashmatchSelector (key val : gostring) : Selector :=
  let key := toLowerASCII key in
  λ h n,
    node ← deref h n;
    rangeLoop (λ a,
      if bool_decide (Key a = key) then
        if bool_decide (Val a = val) then Done (Return true)
        else if decide (len (Val a) <= len val) then Done (Return false)
        else
          pre ← sliceTo (Val a) (len val);
          if bool_decide (pre = val) then
            c ← index (Val a) (len val);
            if bool_decide (c = "-"%char) then Done (Return true)
            else Done (Return false)
          else Done (Return false)
      else Done Continue) (Attr node) false.

Definition attributePrefixSelector (key val : gostring) : Selector :=
  let key := toLowerASCII key in
  λ h n,
    node ← deref h n;
    rangeLoop (λ a,
      if bool_decide (Key a = key)
      then Done (Return (HasPrefix (Val a) val))
      else Done Continue) (Attr node) false.

Definition attributeSuffixSelector (key val : gostring) : Selector :=
  let key := toLowerASCII key in
  λ h n,
    node ← deref h n;
    rangeLoop (λ a,
      if bool_decide (Key a = key)
      then Done (Return (HasSuffix (Val a) val))
      else Done Continue) (Attr node) false.

Definition attributeSubstringSelector (key val : gostring) : Selector :=
  let key := toLowerASCII key in
  λ h n,
    node ← deref h n;
    rangeLoop (λ a,
      if bool_decide (Key a = key)
      then Done (Return (Contains (Val a) val))
      else Done Continue) (Attr node) false.

(** *** Combinators *)

(** [a(n) && b(n)]: [b] is applied only when [a] holds. *)
Definition intersectionSelector (a b : Selector) : Selector :=
  λ (h : gmap loc Node) (n : ptr),
    a h n ≫= λ x : bool,
    if x then b h n else Done false.

Definition negatedSelector (a : Selector) : Selector :=
  λ (h : gmap loc Node) (n : ptr),
    a h n ≫= λ x : bool,
    Done (negb x).

(** *** [nthChildSelector] *)

(** [for i = 0; i < len(c); i++ { if c[i] == n { break } }]: the value of [i]
    after the loop, counted from [i]. *)
Fixpoint searchChild (c : list ptr) (n : ptr) (i : nat) : nat :=
  match c with
  | [] => i
  | x :: c' => if bool_decide (x = n) then i else searchChild c' n (S i)
  end.

Definition nthChildSelector (W : IntSize) (a b : Z) (last : bool) : Selector :=
  λ h n,
    node ← deref h n;
    match Parent node with
    | None => Done false
    | Some _ =>
        pnode ← deref h (Parent node);
        let c := Child pnode in
        let i := Z.of_nat (searchChild c n 0) in
        if decide (i = len c) then Done false
        else
          let i := if last then intSub W (len c) i else intAdd W i 1 in
          let i := intSub W i b in
          if decide (a = 0) then Done (bool_decide (i = 0))
          else
            r ← intRem W i a;
            if bool_decide (r = 0) then
              q ← intQuo W i a;
              Done (bool_decide (0 <= q))
            else Done false
    end.

(** ** [MatchAll] *)

(** [for _, x := range l { st = body st x }] with a body that may panic. *)
Fixpoint forEach {A S} (body : S → A → outcome S) (l : list A) (st : S)
  : outcome S :=
  match l with
  | [] => Done st
  | x :: l' => st' ← body st x; forEach body l' st'
  end.

(** A predicate with side effects. A Go [func(n) bool] may be a closure over
    variables that it updates at each call; [St] is the state of those
    variables, handed from one application to the next. *)
Definition Effectful (St : Type) : Type :=
  gmap loc Node → ptr → St → outcome (bool * St).

(** A pure predicate, which leaves the state as it is. *)
Definition pureSel {St} (s : Selector) : Effectful St :=
  λ h n st, s h n ≫= λ b : bool, Done (b, st).

(** The predicate [s] wrapped so that each application appends its argument
    to a list before it returns the answer of [s]. *)
Definition tracing (s : Selector) : Effectful (list ptr) :=
  λ h n log, s h n ≫= λ b : bool, Done (b, log ++ [n]).

(** [s.MatchAll(n)] for a predicate with side effects: the state goes
    through the application [s(n)] and then through the recursive calls on
    the children, in the order in which the source evaluates them. The
    recursion follows the child pointers of the store, hence the fuel. *)
Fixpoint MatchAll_st {St} (fuel : nat) (s : Effectful St) (h : gmap loc Node)
  (n : ptr) (st : St) : outcome (list ptr * St) :=
  match fuel with
  | O => OutOfFuel
  | S fuel' =>
      s h n st ≫= λ x : bool * St,
      let result := if x.1 then [n] else [] in
      node ← deref h n;
      forEach (λ '(result, st) child,
                 MatchAll_st fuel' s h child st ≫= λ r : list ptr * St,
                 Done (result ++ r.1, r.2))
              (Child node) (result, x.2)
  end.

(** [s.MatchAll(n)] for a pure predicate. *)
Definition MatchAll (fuel : nat) (s : Selector) (h : gmap loc Node) (n : ptr)
  : outcome (list ptr) :=
  r ← MatchAll_st fuel (pureSel s) h n (); Done r.1.

(** ** [Compile] *)

(** The parser's cursor: the selector source and a byte offset. *)
Record parser : Type := mkParser { parser_s : gostring; parser_i : Z }.

(** Go's [error] values of this package: a syntax error of the parser, or
    the [fmt.Errorf("parsing %q: %d bytes left over", sel, n)] of [Compile],
    kept as the arguments of its format. *)
Inductive error : Type :=
| SyntaxError (msg : gostring)
| LeftOver (sel : gostring) (n : Z).

Section Compile.
Variable W : IntSize.

(** [p.parseSimpleSelectorSequence()] lives in the parser's file; it
    returns [(Selector, error)] and moves the cursor. *)
Variable parseSimpleSelectorSequence :
  parser → parser * (option Selector * option error).

Definition Compile (sel : gostring) : option Selector * option error :=
  let p := mkParser sel 0 in
  let '(p, (compiled, err)) := parseSimpleSelectorSequence p in
  match err with
  | Some e => (None, Some e)
  | None =>
      if decide (parser_i p < len sel)
      then (None, Some (LeftOver sel (intSub W (len sel) (parser_i p))))
      else (compiled, None)
  end.
End Compile.

(** Modelled from the spec: the parser's initial "match everything"
    predicate, the one [*] denotes. It is built in the parser's file, of
    which only the interface used by [Compile] is modelled. *)
Definition matchEverything : Selector := λ _ _, Done true.

Definition isLetter (c : ascii) : bool :=
  isUpper c
  || ((N_of_ascii "a" <=? N_of_ascii c)%N && (N_of_ascii c <=? N_of_ascii "z")%N).

(** The longest prefix of ASCII letters. *)
Fixpoint letters (s : gostring) : gostring :=
  match s with
  | c :: s' => if isLetter c then c :: letters s' else []
  | [] => []
  end.

(** Modelled from the spec: the head of a simple selector sequence, an
    optional type selector (here a run of ASCII letters) or [*], with no
    qualifier after it. It stands in for the parser where a concrete one is
    needed. *)
Definition parseTypeOnly (p : parser) : parser * (option Selector * option error) :=
  let rest := drop (Z.to_nat (parser_i p)) (parser_s p) in
  match rest with
  | c :: _ =>
      if bool_decide (c = "*"%char)
      then (mkParser (parser_s p) (parser_i p + 1), (Some matchEverything, None))
      else
        let ident := letters rest in
        match ident with
        | [] => (p, (Some matchEverything, None))
        | _ => (mkParser (parser_s p) (parser_i p + len ident),
                (Some (typeSelector ident), None))
        end
  | [] => (p, (Some matchEverything, None))
  end.

(** ** Trees in the store *)

(** A store as Go keeps it: the parent pointer of a node is [nil] or points
    to a node. *)
Definition closedStore (h : gmap loc Node) : Prop :=
  map_Forall (λ _ node,
                Parent node = None ∨ is_Some (Parent node ≫= (h !!.))) h.

(** The shape of a tree: the location of the root and the subtrees of its
    children, left to right. *)
#[warnings="-register-all"]
Inductive rtree : Set :=
| RNode (root : loc) (kids : list rtree).

(** Two lists of equal length whose elements are pairwise related. *)
Fixpoint all2 {A B} (f : A → B → bool) (l1 : list A) (l2 : list B) : bool :=
  match l1, l2 with
  | [], [] => true
  | x :: l1', y :: l2' => f x y && all2 f l1' l2'
  | _, _ => false
  end.

(** [shape h n t]: following the child pointers of [h] from [n] unfolds
    exactly into [t] (all the nodes exist, no child pointer is [nil]). *)
Fixpoint shape (h : gmap loc Node) (n : ptr) (t : rtree) : bool :=
  match t with
  | RNode r kids =>
      bool_decide (n = Some r)
      && match h !! r with
         | None => false
         | Some node => all2 (λ k c, shape h c k) kids (Child node)
         end
  end.

(** Document order: a node, then the subtrees of its children, left to
    right. *)
Fixpoint preorder (t : rtree) : list ptr :=
  match t with
  | RNode r kids => Some r :: concat (map preorder kids)
  end.

Fixpoint height (t : rtree) : nat :=
  match t with
  | RNode _ kids => S (foldr Nat.max O (map height kids))
  end.

(** [subtree u t]: [u] is [t] or a subtree of one of its children. *)
Inductive subtree (u : rtree) : rtree → Prop :=
| subtree_here : subtree u u
| subtree_kid r kids k : k ∈ kids → subtree u k → subtree u (RNode r kids).

(** [a] is a proper ancestor of [b] in [t]. *)
Definition ancestorIn (t : rtree) (a b : ptr) : Prop :=
  ∃ r kids k, a = Some r ∧ subtree (RNode r kids) t ∧ k ∈ kids ∧ b ∈ preorder k.

(** [x] occurs before [y] in [l]. *)
Definition before {A} (x y : A) (l : list A) : Prop :=
  ∃ l1 l2 l3, l = l1 ++ x :: l2 ++ y :: l3.

(** ** Compiled predicates *)

(** The predicates a compilation can produce: the constructors of this
    file applied to strings and to [int]s, and [matchEverything]. *)
Inductive compiled (W : IntSize) : Selector → Prop :=
| compiled_everything : compiled W matchEverything
| compiled_type tag : compiled W (typeSelector tag)
| compiled_exists key : compiled W (attributeExistsSelector key)
| compiled_equals key val : compiled W (attributeEqualsSelector key val)
| compiled_includes key val : compiled W (attributeIncludesSelector key val)
| compiled_dashmatch key val : compiled W (attributeDashmatchSelector key val)
| compiled_prefix key val : compiled W (attributePrefixSelector key val)
| compiled_suffix key val : compiled W (attributeSuffixSelector key val)
| compiled_substring key val : compiled W (attributeSubstringSelector key val)
| compiled_intersection a b :
    compiled W a → compiled W b → compiled W (intersectionSelector a b)
| compiled_negated a : compiled W a → compiled W (negatedSelector a)
| compiled_nthChild a b last :
    inInt W a → inInt W b → compiled W (nthChildSelector W a b last).

(** The seven attribute selectors for a key and a value (the first ignores
    the value). *)
Definition attributeSelectors (key val : gostring) : list Selector :=
  [attributeExistsSelector key;
   attributeEqualsSelector key val;
   attributeIncludesSelector key val;
   attributeDashmatchSelector key val;
   attributePrefixSelector key val;
   attributeSuffixSelector key val;
   attributeSubstringSelector key val].

(** ** The vocabulary of the specification *)

(** ASCII lower-casing, byte by byte. *)
Definition lowerByte (c : ascii) : ascii :=
  if isUpper c then byteAdd c caseGap else c.

Definition lower (s : gostring) : gostring := map lowerByte s.

(** Equality up to ASCII case. *)
Definition eqFold (s t : gostring) : Prop := lower s = lower t.

Definition isSpace (c : ascii) : bool := bool_decide (c ∈ whitespace).

(** The tokens of a whitespace-separated list. The value is cut at every
    whitespace byte; each piece that a whitespace byte ends is a token, empty
    or not, and what follows the last whitespace byte is a token when it is
    not empty. [cur] is the piece being read. *)
Fixpoint tokensFrom (cur s : gostring) : list gostring :=
  match s with
  | [] => match cur with
          | [] => []
          | _ => [cur]
          end
  | c :: s' =>
      if isSpace c then cur :: tokensFrom [] s'
      else tokensFrom (cur ++ [c]) s'
  end.

Definition tokens (s : gostring) : list gostring := tokensFrom [] s.

(** A string without whitespace bytes. *)
Abbreviation spaceFree := (Forall (λ c : ascii, isSpace c = false)).

(** No token is left open at the end of the value: it is empty or its last
    byte is whitespace. *)
Definition closedValue (s : gostring) : Prop :=
  s = [] ∨ ∃ s' c, s = s' ++ [c] ∧ isSpace c = true.

(** The first attribute pair with a given key. *)
Definition firstAttr (key : gostring) (attrs : list Attribute) : option Attribute :=
  snd <$> list_find (λ a, Key a = key) attrs.

(** A node with its attribute list replaced. *)
Definition withAttr (node : Node) (attrs : list Attribute) : Node :=
  mkNode (Parent node) (Child node) (Type_ node) (Data node) attrs.

(** The dash-match rule on one value: [v], or [v] followed by a hyphen and
    anything. *)
Definition dashMatches (value v : gostring) : Prop :=
  value = v ∨ ∃ rest, value = v ++ "-"%char :: rest.

(** The 1-based position counted by [nthChildSelector]: from the front, or
    from the back when [last] is set. *)
Definition position (last : bool) (count p : Z) : Z :=
  if last then count - p + 1 else p.

(** The [an+b] rule on [q], the position minus [b]. *)
Definition formulaHolds (a q : Z) : Prop :=
  if decide (a = 0) then q = 0 else ∃ k, 0 <= k ∧ q = k * a.

(** ** Sample stores *)

(** A store with the single parentless element [<tag k="v">] at location 1. *)
Definition single (tag k v : string) : gmap loc Node :=
  {[ 1%positive :=
       mkNode None [] ElementNode (str tag) [mkAttribute (str k) (str v)] ]}.

(** The element [<p k="v1" k="v2">]: two attribute pairs with one key. *)
Definition twiceNode (k v1 v2 : string) : Node :=
  mkNode None [] ElementNode (str "p")
    [mkAttribute (str k) (str v1); mkAttribute (str k) (str v2)].

(** A store with [twiceNode k v1 v2] alone, at location 1. *)
Definition twice (k v1 v2 : string) : gmap loc Node :=
  {[ 1%positive := twiceNode k v1 v2 ]}.

(** The element [<li id="i">] with parent [par]. *)
Definition li (par : loc) (i : string) : Node :=
  mkNode (Some par) [] ElementNode (str "li") [mkAttribute (str "id") (str i)].

(** The list [<ol><li id=1><li id=2><li id=3><li id=4></ol>]: the [ol] at
    location 1, its items at locations 2 to 5. *)
Definition olNode : Node :=
  mkNode None [Some 2; Some 3; Some 4; Some 5]%positive ElementNode (str "ol") [].

Definition olStore : gmap loc Node :=
  list_to_map
    [(1, olNode); (2, li 1 "1"); (3, li 1 "2"); (4, li 1 "3"); (5, li 1 "4")]%positive.

Definition olTree : rtree :=
  RNode 1 [RNode 2 []; RNode 3 []; RNode 4 []; RNode 5 []]%positive.

(** The odd items of [olStore]. *)
Definition oddItems (x : ptr) : bool :=
  bool_decide (x ∈ [Some 2; Some 4]%positive).

(** [olStore] with one more item at location 6 that names the [ol] as its
    parent although the [ol] does not list it. *)
Definition strayStore : gmap loc Node := <[6%positive := li 1 "5"]> olStore.

(** The list [<ol><li id=1><li id=2><li id=3></ol>], laid out like
    [olStore]. *)
Definition ol3Store : gmap loc Node :=
  list_to_map
    [(1, mkNode None [Some 2; Some 3; Some 4] ElementNode (str "ol") []);
     (2, li 1 "1"); (3, li 1 "2"); (4, li 1 "3")]%positive.

(** [li:nth-child(an+b)], or [li:nth-last-child(an+b)] when [last] is set,
    as the intersection the specification describes. *)
Definition liNth (a b : Z) (last : bool) : Selector :=
  intersectionSelector (typeSelector (str "li")) (nthChildSelector Int64 a b last).

(** ** Further vocabulary *)

(** A string without ASCII capital letters. *)
Abbreviation upperFree := (Forall (λ c : ascii, isUpper c = false)).

(** Some byte of the string is an ASCII capital letter. *)
Abbreviation hasUpper := (Exists (λ c : ascii, isUpper c = true)).

(** A node with its child list replaced. *)
Definition withChild (node : Node) (cs : list ptr) : Node :=
  mkNode (Parent node) cs (Type_ node) (Data node) (Attr node).

(** [b] is one of the child pointers of the node at [a]. *)
Definition childOf (h : gmap loc Node) (a b : loc) : Prop :=
  ∃ node, h !! a = Some node ∧ Some b ∈ Child node.

(** A predicate that panics on every node. *)
Definition panicking : Selector := λ _ _, Panic.


(** [olStore] where the last item lists the [ol] as its child: a cycle. *)
Definition cyclicStore : gmap loc Node :=
  <[5%positive := withChild (li 1 "4") [Some 1%positive]]> olStore.

(** * Properties *)

(** ** The outcome monad and loops *)

(** One step of a run: a bind whose first part has returned. *)
Ltac run := change (Done ?x ≫= ?f) with (f x); cbv beta.

Lemma deref_Some (h : gmap loc Node) (n : loc) (node : Node) :
  h !! n = Some node → deref h (Some n) = Done node.
Proof. intros H. unfold deref. simpl. by rewrite H. Qed.

Lemma deref_nil (h : gmap loc Node) : deref h None = Panic.
Proof. reflexivity. Qed.

(** ** Integers *)

Lemma minInt_maxInt W : minInt W = - maxInt W - 1 ∧ 0 < maxInt W.
Proof. destruct W; unfold minInt, maxInt; simpl; lia. Qed.

Lemma modulus_eq W : 2 ^ intBits W = 2 * maxInt W + 2.
Proof. destruct W; unfold maxInt; simpl; lia. Qed.

Lemma wrap_inInt W x : inInt W x → wrap W x = x.
Proof.
  unfold inInt, wrap. intros Hx.
  pose proof (minInt_maxInt W) as [Hmin _].
  pose proof (modulus_eq W) as Hmod.
  rewrite Z.mod_small by lia. lia.
Qed.

Lemma wrap_overflow W x :
  maxInt W < x <= maxInt W + 2 ^ intBits W → wrap W x = x - 2 ^ intBits W.
Proof.
  unfold wrap. intros Hx.
  pose proof (minInt_maxInt W) as [Hmin _].
  pose proof (modulus_eq W) as Hmod.
  replace (x - minInt W) with ((x - minInt W - 2 ^ intBits W) + 1 * 2 ^ intBits W) by lia.
  rewrite Z.mod_add by lia.
  rewrite Z.mod_small by lia. lia.
Qed.

(** ** Go's [strings] package *)

Lemma HasPrefix_spec (s p : gostring) :
  HasPrefix s p = true ↔ ∃ r, s = p ++ r.
Proof.
  unfold HasPrefix. rewrite andb_true_iff, !bool_decide_eq_true. split.
  - intros [_ Htake]. exists (drop (length p) s).
    rewrite <- (take_drop (length p) s) at 1. by rewrite Htake.
  - intros [r ->]. rewrite length_app, take_app_length. split; [lia|done].
Qed.

Lemma HasSuffix_spec (s p : gostring) :
  HasSuffix s p = true ↔ ∃ r, s = r ++ p.
Proof.
  unfold HasSuffix. rewrite andb_true_iff, !bool_decide_eq_true. split.
  - intros [_ Hdrop]. exists (take (length s - length p) s).
    rewrite <- (take_drop (length s - length p) s) at 1. by rewrite Hdrop.
  - intros [r ->]. rewrite length_app. split; [lia|].
    replace (length r + length p - length p)%nat with (length r) by lia.
    by rewrite drop_app_length.
Qed.

Lemma Index_lower_bound (s sep : gostring) : -1 <= Index s sep.
Proof.
  induction s as [|c s IH]; cbn [Index]; destruct (HasPrefix _ sep); try lia.
  case_decide; lia.
Qed.

Lemma Contains_spec (s sub : gostring) :
  Contains s sub = true ↔ ∃ l r, s = l ++ sub ++ r.
Proof.
  unfold Contains. rewrite bool_decide_eq_true.
  induction s as [|c s IH]; cbn [Index].
  - destruct (HasPrefix [] sub) eqn:Hp.
    + apply HasPrefix_spec in Hp as [r Hr]. split; [|done].
      intros _. by exists [], r.
    + split; [done|]. intros (l & r & Heq).
      destruct l; [|done]. simpl in Heq.
      assert (HasPrefix [] sub = true) by (apply HasPrefix_spec; eauto).
      congruence.
  - destruct (HasPrefix (c :: s) sub) eqn:Hp.
    + apply HasPrefix_spec in Hp as [r Hr]. split; [|done].
      intros _. by exists [], r.
    + pose proof (Index_lower_bound s sub) as Hlb.
      case_decide as Hi.
      * split; [done|]. intros (l & r & Heq). destruct l as [|c' l].
        -- assert (HasPrefix (c :: s) sub = true)
             by (apply HasPrefix_spec; eauto).
           congruence.
        -- injection Heq as -> ->. destruct (proj2 IH); eauto.
      * split; [|lia]. intros _.
        destruct (proj1 IH Hi) as (l & r & ->). by exists (c :: l), r.
Qed.

(** ** [toLowerASCII] lower-cases every byte *)

Lemma toLowerASCII_loop_lower k i s b :
  (i + k = length s)%nat →
  default s b = lower (take i s) ++ drop i s →
  default s (toLowerASCII_loop k i s b) = lower s.
Proof.
  revert i b. induction k as [|k IH]; intros i b Hlen Hb; simpl.
  - rewrite Hb. rewrite take_ge, drop_ge by lia. by rewrite app_nil_r.
  - destruct (lookup_lt_is_Some_2 s i) as [c Hc]; [lia|].
    rewrite Hc. apply IH; [lia|].
    rewrite (take_S_r _ _ _ Hc). unfold lower. rewrite map_app. simpl.
    rewrite <- app_assoc. simpl.
    rewrite (drop_S _ _ _ Hc) in Hb.
    unfold lowerByte. destruct (isUpper c); simpl.
    + change (match b with Some b0 => b0 | None => s end) with (default s b).
      rewrite Hb. unfold lower.
      rewrite insert_app_r_alt; rewrite length_map, length_take; [|lia].
      replace (i - i `min` length s)%nat with O by lia. done.
    + done.
Qed.

Lemma toLowerASCII_lower s : toLowerASCII s = lower s.
Proof.
  unfold toLowerASCII.
  pose proof (toLowerASCII_loop_lower (length s) 0 s None) as H.
  simpl in H. rewrite drop_0 in H. specialize (H eq_refl eq_refl).
  by destruct (toLowerASCII_loop (length s) 0 s None).
Qed.

(** ** The type selector *)

Lemma typeSelector_run (t : gostring) (h : gmap loc Node) (n : loc)
    (node : Node) :
  h !! n = Some node →
  typeSelector t h (Some n)
  = Done (bool_decide (Type_ node = ElementNode)
          && bool_decide (Data node = lower t)).
Proof.
  intros Hn. unfold typeSelector. rewrite (deref_Some _ _ _ Hn). simpl.
  by rewrite toLowerASCII_lower.
Qed.

(** C6 (as amended). [typeSelector t] holds of a node exactly when the node
    is an element whose stored tag name is, byte for byte, the ASCII
    lower-casing of [t]: the case is folded on the selector's side only. *)
Theorem typeSelector_lowercased_tag (t : gostring) (h : gmap loc Node)
    (n : loc) (node : Node) :
  h !! n = Some node →
  ∃ b, typeSelector t h (Some n) = Done b
       ∧ (b = true ↔ Type_ node = ElementNode ∧ Data node = lower t).
Proof.
  intros Hn. rewrite (typeSelector_run _ _ _ _ Hn).
  eexists; split; [reflexivity|].
  by rewrite andb_true_iff, !bool_decide_eq_true.
Qed.

Lemma typeSelector_lowercased_tag_witness :
  single "div" "class" "abc" !! 1%positive
    = Some (mkNode None [] ElementNode (str "div")
              [mkAttribute (str "class") (str "abc")])
  ∧ ∃ b, typeSelector (str "DIV") (single "div" "class" "abc") (Some 1%positive)
         = Done b
       ∧ (b = true ↔
          Type_ (mkNode None [] ElementNode (str "div")
                   [mkAttribute (str "class") (str "abc")]) = ElementNode
          ∧ Data (mkNode None [] ElementNode (str "div")
                    [mkAttribute (str "class") (str "abc")]) = lower (str "DIV")).
Proof.
  split; [reflexivity|].
  apply (typeSelector_lowercased_tag (str "DIV") (single "div" "class" "abc")
           1%positive).
  reflexivity.
Defined.

(** C6 as stated fails: the selector built from "div" does not hold of an
    element whose stored tag name is "DIV", although the two names are equal
    up to ASCII case. *)
Lemma typeSelector_stored_uppercase :
  typeSelector (str "div") (single "DIV" "class" "abc") (Some 1%positive)
    = Done false
  ∧ single "DIV" "class" "abc" !! 1%positive
    = Some (mkNode None [] ElementNode (str "DIV")
              [mkAttribute (str "class") (str "abc")])
  ∧ eqFold (str "DIV") (str "div").
Proof. repeat split; vm_compute; reflexivity. Qed.

(** ** Attribute selectors: the scan of the attribute list *)

Lemma rangeLoop_cons {A R} (body : A → outcome (ctl R)) (a : A) (l : list A)
    (dflt : R) :
  rangeLoop body (a :: l) dflt
  = body a ≫= λ c, match c with
                   | Return r => Done r
                   | Continue => rangeLoop body l dflt
                   end.
Proof. reflexivity. Qed.

Section KeyScan.
Variable key : gostring.
Variable g : Attribute → outcome (ctl bool).

(** The loop body shared by the attribute selectors. *)
Local Abbreviation body :=
  (λ a : Attribute, if bool_decide (Key a = key) then g a else Done Continue).

Lemma rangeLoop_absent (attrs : list Attribute) :
  (∀ a, a ∈ attrs → Key a ≠ key) →
  rangeLoop body attrs false = Done false.
Proof.
  induction attrs as [|a attrs IH]; intros Hno; [done|].
  rewrite rangeLoop_cons. cbv beta.
  rewrite bool_decide_eq_false_2 by (apply Hno; left). simpl.
  apply IH. intros x Hx. apply Hno. by right.
Qed.

Lemma rangeLoop_skip (pre rest : list Attribute) :
  (∀ a, a ∈ pre → Key a ≠ key) →
  rangeLoop body (pre ++ rest) false = rangeLoop body rest false.
Proof.
  induction pre as [|a pre IH]; intros Hno; [done|].
  rewrite <- app_comm_cons, rangeLoop_cons. cbv beta.
  rewrite bool_decide_eq_false_2 by (apply Hno; left). simpl.
  apply IH. intros x Hx. apply Hno. by right.
Qed.

Lemma rangeLoop_first_returns (pre post : list Attribute) (a : Attribute) (b : bool) :
  (∀ x, x ∈ pre → Key x ≠ key) →
  Key a = key →
  g a = Done (Return b) →
  rangeLoop body (pre ++ a :: post) false = Done b.
Proof.
  intros Hno Ha Hg. rewrite rangeLoop_skip, rangeLoop_cons by done.
  cbv beta. rewrite bool_decide_eq_true_2 by done. by rewrite Hg.
Qed.

Lemma rangeLoop_first_continues (pre post : list Attribute) (a : Attribute) :
  (∀ x, x ∈ pre → Key x ≠ key) →
  Key a = key →
  g a = Done Continue →
  rangeLoop body (pre ++ a :: post) false = rangeLoop body post false.
Proof.
  intros Hno Ha Hg. rewrite rangeLoop_skip, rangeLoop_cons by done.
  cbv beta. rewrite bool_decide_eq_true_2 by done. by rewrite Hg.
Qed.
End KeyScan.

(** The first pair with a key splits the list. *)
Lemma firstAttr_Some (key : gostring) (attrs : list Attribute) (a : Attribute) :
  firstAttr key attrs = Some a ↔
  ∃ pre post, attrs = pre ++ a :: post ∧ Key a = key
              ∧ ∀ x, x ∈ pre → Key x ≠ key.
Proof.
  unfold firstAttr. split.
  - intros H. apply fmap_Some in H as ([i x] & Hfind & ->). simpl.
    apply list_find_Some in Hfind as (Hi & Hk & Hbefore).
    exists (take i attrs), (drop (S i) attrs). split; [|split; [done|]].
    + by rewrite take_drop_middle.
    + intros y Hy. apply list_elem_of_lookup in Hy as [j Hj].
      pose proof (lookup_lt_Some _ _ _ Hj) as Hlt.
      rewrite length_take in Hlt.
      rewrite lookup_take_lt in Hj by lia.
      apply (Hbefore j y Hj). lia.
  - intros (pre & post & -> & Hk & Hno).
    apply fmap_Some. exists (length pre, a). split; [|done].
    apply list_find_Some. split; [|split; [done|]].
    + by rewrite list_lookup_middle.
    + intros j y Hj Hlt Hy.
      rewrite lookup_app_l in Hj by done.
      apply (Hno y); [|done]. apply list_elem_of_lookup. eauto.
Qed.

Lemma firstAttr_None (key : gostring) (attrs : list Attribute) :
  firstAttr key attrs = None ↔ ∀ x, x ∈ attrs → Key x ≠ key.
Proof.
  unfold firstAttr. rewrite fmap_None, list_find_None, Forall_forall. done.
Qed.

(** ** C7: an absent key never matches *)

Ltac open_selector Hn :=
  cbv beta delta
    [attributeExistsSelector attributeEqualsSelector attributeIncludesSelector
     attributeDashmatchSelector attributePrefixSelector attributeSuffixSelector
     attributeSubstringSelector] zeta;
  rewrite (deref_Some _ _ _ Hn), toLowerASCII_lower;
  run.

(** C7. When no pair of the node's own attribute list has the
    lower-cased key, each of the seven attribute selectors answers false;
    and the answer of each is a function of the node's own attribute list
    alone: two nodes, in any stores, with equal attribute lists get equal
    answers. *)
Theorem attribute_selectors_absent_key (k v : gostring) (h : gmap loc Node)
    (n : loc) (node : Node) :
  h !! n = Some node →
  ((∀ a, a ∈ Attr node → Key a ≠ lower k) →
   Forall (λ s : Selector, s h (Some n) = Done false) (attributeSelectors k v))
  ∧ (∀ (h' : gmap loc Node) (n' : loc) (node' : Node),
       h' !! n' = Some node' → Attr node' = Attr node →
       Forall (λ s : Selector, s h' (Some n') = s h (Some n))
              (attributeSelectors k v)).
Proof.
  intros Hn. split.
  - intros Hno. unfold attributeSelectors.
    repeat apply Forall_cons_2; try apply Forall_nil_2;
      open_selector Hn; by apply rangeLoop_absent.
  - intros h' n' node' Hn' Hattr. unfold attributeSelectors.
    repeat apply Forall_cons_2; try apply Forall_nil_2;
      cbv beta delta
        [attributeExistsSelector attributeEqualsSelector
         attributeIncludesSelector attributeDashmatchSelector
         attributePrefixSelector attributeSuffixSelector
         attributeSubstringSelector] zeta;
      rewrite (deref_Some _ _ _ Hn), (deref_Some _ _ _ Hn');
      run; by rewrite Hattr.
Qed.

Lemma attribute_selectors_absent_key_witness :
  Forall (λ s : Selector,
            s (single "p" "title" "en") (Some 1%positive) = Done false)
         (attributeSelectors (str "LANG") (str "en")).
Proof.
  refine (proj1 (attribute_selectors_absent_key (str "LANG") (str "en")
                   (single "p" "title" "en") 1%positive _ eq_refl) _).
  intros a Ha. apply list_elem_of_singleton in Ha as ->. vm_compute. discriminate.
Defined.

(** ** C5: dash-match *)

Lemma len_app {A} (l1 l2 : list A) : len (l1 ++ l2) = len l1 + len l2.
Proof. unfold len. rewrite length_app. lia. Qed.

Lemma len_cons {A} (x : A) (l : list A) : len (x :: l) = len l + 1.
Proof. unfold len. simpl. lia. Qed.

Lemma len_nonneg {A} (l : list A) : 0 <= len l.
Proof. unfold len. lia. Qed.

Lemma to_nat_len {A} (l : list A) : Z.to_nat (len l) = length l.
Proof. unfold len. lia. Qed.

(** The comparison [attributeDashmatchSelector] makes on one value never
    panics and decides the dash-match rule. *)
Lemma dashmatch_value (value v : gostring) :
  ∃ b,
    (if bool_decide (value = v) then Done (Return true)
     else if decide (len value <= len v) then Done (Return false)
     else
       pre ← sliceTo value (len v);
       if bool_decide (pre = v) then
         c ← index value (len v);
         if bool_decide (c = "-"%char) then Done (Return true)
         else Done (Return false)
       else Done (Return false))
    = Done (Return b)
    ∧ (b = true ↔ dashMatches value v).
Proof.
  unfold dashMatches.
  case_bool_decide as Heq; [exists true; split; [done|]; split; auto|].
  case_decide as Hlen.
  { exists false. split; [done|]. split; [done|].
    intros [->|[rest ->]]; [done|].
    rewrite len_app, len_cons in Hlen. pose proof (len_nonneg rest). lia. }
  unfold sliceTo. rewrite decide_True by (pose proof (len_nonneg v); lia).
  run.
  rewrite to_nat_len.
  case_bool_decide as Hpre.
  - unfold index. rewrite decide_True by (pose proof (len_nonneg v); lia).
    rewrite to_nat_len.
    destruct (lookup_lt_is_Some_2 value (length v)) as [c Hc];
      [unfold len in Hlen; lia|].
    rewrite Hc. simpl. case_bool_decide as Hdash.
    + exists true. split; [done|]. split; [|done]. intros _. right.
      exists (drop (S (length v)) value).
      rewrite <- (take_drop_middle value (length v) c Hc) at 1.
      by rewrite Hpre, Hdash.
    + exists false. split; [done|]. split; [done|].
      intros [->|[rest ->]]; [done|].
      rewrite list_lookup_middle in Hc by done. congruence.
  - exists false. split; [done|]. split; [done|].
    intros [->|[rest ->]]; [done|].
    rewrite take_app_length in Hpre. done.
Qed.

(** C5 (as amended). [attributeDashmatchSelector k v] holds of a node exactly
    when the first pair of its attribute list whose key is the lower-cased [k]
    has a value that is [v], or [v] followed by a hyphen and anything. *)
Theorem attributeDashmatch_first_pair (k v : gostring) (h : gmap loc Node)
    (n : loc) (node : Node) :
  h !! n = Some node →
  ∃ b, attributeDashmatchSelector k v h (Some n) = Done b
       ∧ (b = true ↔
          ∃ a, firstAttr (lower k) (Attr node) = Some a ∧ dashMatches (Val a) v).
Proof.
  intros Hn. open_selector Hn.
  destruct (firstAttr (lower k) (Attr node)) as [a|] eqn:Hfirst.
  - apply firstAttr_Some in Hfirst as (pre & post & -> & Hk & Hno).
    destruct (dashmatch_value (Val a) v) as (b & Hb & Hiff).
    exists b. split.
    + by apply (rangeLoop_first_returns (lower k) _ pre post a b).
    + rewrite Hiff. split; [eauto|]. by intros (a' & [= <-] & H).
  - pose proof (proj1 (firstAttr_None _ _) Hfirst) as Hno.
    exists false. split; [by apply rangeLoop_absent|].
    split; [done|]. by intros (a' & [=] & _).
Qed.

Lemma attributeDashmatch_first_pair_witness :
  ∃ b, attributeDashmatchSelector (str "Lang") (str "en")
         (single "p" "lang" "en-gb") (Some 1%positive) = Done b
       ∧ (b = true ↔
          ∃ a, firstAttr (lower (str "Lang"))
                 [mkAttribute (str "lang") (str "en-gb")] = Some a
               ∧ dashMatches (Val a) (str "en")).
Proof.
  apply (attributeDashmatch_first_pair (str "Lang") (str "en")
           (single "p" "lang" "en-gb") 1%positive
           (mkNode None [] ElementNode (str "p")
              [mkAttribute (str "lang") (str "en-gb")])).
  reflexivity.
Defined.

(** C5 as stated fails twice. A node that has a pair [lang="en"] after a
    pair [lang="fr"] is not matched, and a key written "Lang" in the selector
    matches the stored key "lang", not a stored key "Lang". *)
Lemma attributeDashmatch_some_pair_fails :
  (attributeDashmatchSelector (str "lang") (str "en")
     (twice "lang" "fr" "en") (Some 1%positive) = Done false
   ∧ mkAttribute (str "lang") (str "en")
       ∈ [mkAttribute (str "lang") (str "fr"); mkAttribute (str "lang") (str "en")]
   ∧ dashMatches (str "en") (str "en"))
  ∧ (attributeDashmatchSelector (str "Lang") (str "en")
       (single "p" "Lang" "en") (Some 1%positive) = Done false
     ∧ attributeDashmatchSelector (str "Lang") (str "en")
         (single "p" "lang" "en") (Some 1%positive) = Done true).
Proof.
  split; [split; [|split]|split].
  - vm_compute. reflexivity.
  - apply list_elem_of_In. right. left. reflexivity.
  - left. reflexivity.
  - vm_compute. reflexivity.
  - vm_compute. reflexivity.
Qed.

(** ** C4 and C10: whitespace-separated lists *)

(** Where [IndexAny] stops: nowhere, or at the first whitespace byte. *)
Lemma IndexAny_whitespace (s : gostring) :
  (IndexAny s whitespace = -1 ∧ spaceFree s)
  ∨ (∃ t c r, s = t ++ c :: r ∧ spaceFree t ∧ isSpace c = true
              ∧ IndexAny s whitespace = len t).
Proof.
  induction s as [|c s IH]; [left; by split|].
  cbn [IndexAny]. fold (isSpace c). destruct (isSpace c) eqn:Hc.
  - right. exists [], c, s. by repeat split.
  - destruct IH as [[Hi Hfree]|(t & d & r & -> & Hfree & Hd & Hi)].
    + left. rewrite Hi. rewrite decide_True by done. split; [done|].
      by constructor.
    + right. exists (c :: t), d, r. rewrite Hi.
      rewrite decide_False by (pose proof (len_nonneg t); lia).
      repeat split; [by constructor|done|by rewrite len_cons].
Qed.

Lemma tokensFrom_spaceFree (cur t : gostring) :
  spaceFree t →
  tokensFrom cur t = match cur ++ t with
                     | [] => []
                     | _ => [cur ++ t]
                     end.
Proof.
  intros Hfree. revert cur.
  induction Hfree as [|c t Hc _ IH]; intros cur; cbn [tokensFrom].
  - rewrite app_nil_r. by destruct cur.
  - rewrite Hc, IH, <- app_assoc. done.
Qed.

Lemma tokensFrom_split (cur t r : gostring) (c : ascii) :
  spaceFree t → isSpace c = true →
  tokensFrom cur (t ++ c :: r) = (cur ++ t) :: tokensFrom [] r.
Proof.
  intros Hfree Hc. revert cur.
  induction Hfree as [|d t Hd _ IH]; intros cur; cbn [tokensFrom app].
  - by rewrite Hc, app_nil_r.
  - by rewrite Hd, IH, <- app_assoc.
Qed.

Lemma tokens_split (t r : gostring) (c : ascii) :
  spaceFree t → isSpace c = true →
  tokens (t ++ c :: r) = t :: tokens r.
Proof. intros. unfold tokens. by rewrite tokensFrom_split. Qed.

(** No token contains a whitespace byte. *)
Lemma tokensFrom_spaceFree_tokens (s cur tok : gostring) :
  spaceFree cur → tok ∈ tokensFrom cur s → spaceFree tok.
Proof.
  revert cur. induction s as [|c s IH]; intros cur Hcur; cbn [tokensFrom].
  - destruct cur; [by intros ?%elem_of_nil|].
    by intros ->%list_elem_of_singleton.
  - destruct (isSpace c) eqn:Hc.
    + intros [->|Hin]%elem_of_cons; [done|].
      by apply (IH []).
    + apply IH. apply Forall_app. split; [done|]. by constructor.
Qed.

Lemma closedValue_spaceFree (t : gostring) :
  spaceFree t → closedValue t ↔ t = [].
Proof.
  intros Hfree. split; [|by left].
  intros [->|(s' & c & -> & Hc)]; [done|].
  apply Forall_app in Hfree as [_ Hlast].
  apply (proj1 (Forall_singleton _ _)) in Hlast. congruence.
Qed.

Lemma closedValue_split (t r : gostring) (c : ascii) :
  isSpace c = true → closedValue (t ++ c :: r) ↔ closedValue r.
Proof.
  intros Hc. unfold closedValue.
  destruct (decide (r = [])) as [->|Hr].
  - split; [by left|]. intros _. right. by exists t, c.
  - destruct (exists_last Hr) as (r' & d & ->).
    split.
    + intros [Hnil|(s' & e & Heq & He)]; [by destruct t|].
      right. exists r', e. split; [|done].
      rewrite app_comm_cons, app_assoc in Heq.
      apply app_inj_tail in Heq as [_ ->]. done.
    + intros [Hnil|(s' & e & Heq & He)]; [by destruct r'|].
      apply app_inj_tail in Heq as [Hr' Hd]. subst s' e.
      right. exists (t ++ c :: r'), d.
      by rewrite app_comm_cons, app_assoc.
Qed.

Lemma closedValue_decide (s : gostring) : closedValue s ∨ ¬ closedValue s.
Proof.
  destruct (decide (s = [])) as [->|Hs]; [left; by left|].
  destruct (exists_last Hs) as (s' & c & ->).
  destruct (isSpace c) eqn:Hc.
  - left. right. by exists s', c.
  - right. intros [Hnil|(s'' & d & Heq & Hd)]; [by destruct s'|].
    apply app_inj_tail in Heq as [_ ->]. congruence.
Qed.

Lemma drop_past_middle {A} (t r : list A) (c : A) :
  drop (S (length t)) (t ++ c :: r) = r.
Proof. induction t as [|x t IH]; [done|]. simpl. apply IH. Qed.

(** The inner loop of [attributeIncludesSelector], run with enough fuel:
    it returns true when [v] is a token, false when it is not and the value
    ends in an open piece, and falls through otherwise. *)
Lemma includesLoop_tokens (fuel : nat) (s v : gostring) :
  (length s ≤ fuel)%nat →
  (v ∈ tokens s → includesLoop fuel s v = Done (Return true))
  ∧ (v ∉ tokens s → closedValue s → includesLoop fuel s v = Done Continue)
  ∧ (v ∉ tokens s → ¬ closedValue s →
     includesLoop fuel s v = Done (Return false)).
Proof.
  assert (Hnil : ∀ f,
    (v ∈ tokens [] → includesLoop f [] v = Done (Return true))
    ∧ (v ∉ tokens [] → closedValue [] → includesLoop f [] v = Done Continue)
    ∧ (v ∉ tokens [] → ¬ closedValue [] →
       includesLoop f [] v = Done (Return false))).
  { intros f. split; [by intros ?%elem_of_nil|]. split.
    - intros _ _. by destruct f.
    - intros _ Hopen. destruct Hopen. by left. }
  revert s. induction fuel as [|fuel IH]; intros s Hlen.
  { destruct s; [apply Hnil|simpl in Hlen; lia]. }
  destruct (decide (s = [])) as [->|Hs]; [apply Hnil|].
  cbn [includesLoop]. rewrite bool_decide_eq_false_2 by done.
  destruct (IndexAny_whitespace s)
    as [[Hi Hfree]|(t & c & r & -> & Hfree & Hc & Hi)]; rewrite Hi.
  - rewrite decide_True by done.
    unfold tokens. rewrite tokensFrom_spaceFree by done. cbn [app].
    destruct s as [|c0 s0]; [done|].
    rewrite closedValue_spaceFree by done.
    split; [|split].
    + intros ->%list_elem_of_singleton. by rewrite bool_decide_eq_true_2.
    + by intros _ ?.
    + intros Hne _. rewrite bool_decide_eq_false_2; [done|].
      intros <-. apply Hne. by apply list_elem_of_singleton.
  - rewrite decide_False by (pose proof (len_nonneg t); lia).
    unfold sliceTo.
    rewrite decide_True
      by (rewrite len_app, len_cons;
          pose proof (len_nonneg t); pose proof (len_nonneg r); lia).
    rewrite to_nat_len, take_app_length.
    run.
    rewrite tokens_split, closedValue_split by done.
    case_bool_decide as Htok.
    + subst t. split; [done|].
      split; intros Hne; destruct Hne; by left.
    + unfold sliceFrom.
      rewrite decide_True
        by (rewrite len_app, len_cons;
            pose proof (len_nonneg t); pose proof (len_nonneg r); lia).
      replace (Z.to_nat (len t + 1)) with (S (length t)) by (unfold len; lia).
      rewrite drop_past_middle.
      run.
      destruct (IH r) as (Hyes & Hfall & Hno).
      { rewrite length_app in Hlen. simpl in Hlen. lia. }
      split; [|split].
      * intros [->|Hin]%elem_of_cons; [done|]. by apply Hyes.
      * intros Hne. apply Hfall. intros Hin. apply Hne. by right.
      * intros Hne. apply Hno. intros Hin. apply Hne. by right.
Qed.

(** The scan of [attributeIncludesSelector] over an attribute list. *)
Lemma includes_scan (key v : gostring) (attrs : list Attribute) :
  ∃ b,
    rangeLoop (λ a, if bool_decide (Key a = key)
                    then includesLoop (length (Val a)) (Val a) v
                    else Done Continue) attrs false = Done b
    ∧ (b = true ↔
       ∃ pre a post, attrs = pre ++ a :: post ∧ Key a = key
                     ∧ v ∈ tokens (Val a)
                     ∧ ∀ x, x ∈ pre → Key x = key → closedValue (Val x)).
Proof.
  induction attrs as [|a attrs (b & Hrun & Hiff)].
  { exists false. split; [done|]. split; [done|].
    intros (pre & a & post & Heq & _). by destruct pre. }
  rewrite rangeLoop_cons. cbv beta.
  assert (Hshift : (Key a = key → (v ∉ tokens (Val a)) ∧ closedValue (Val a)) →
    (∃ pre a0 post, a :: attrs = pre ++ a0 :: post ∧ Key a0 = key
                    ∧ v ∈ tokens (Val a0)
                    ∧ ∀ x, x ∈ pre → Key x = key → closedValue (Val x))
    ↔ (∃ pre a0 post, attrs = pre ++ a0 :: post ∧ Key a0 = key
                      ∧ v ∈ tokens (Val a0)
                      ∧ ∀ x, x ∈ pre → Key x = key → closedValue (Val x))).
  { intros Ha. split.
    - intros (pre & a0 & post & Heq & Hk & Hin & Hpre).
      destruct pre as [|a1 pre]; simpl in Heq;
        injection Heq as Hhd Htl; subst.
      + by destruct (Ha eq_refl).
      + exists pre, a0, post. repeat split; try done.
        intros x Hx. apply Hpre. by right.
    - intros (pre & a0 & post & -> & Hk & Hin & Hpre).
      exists (a :: pre), a0, post. repeat split; try done.
      intros x [->|Hx]%elem_of_cons Hkx; [by destruct (Ha Hkx)|by apply Hpre]. }
  case_bool_decide as Hkey.
  - destruct (includesLoop_tokens (length (Val a)) (Val a) v (le_n _))
      as (Hyes & Hfall & Hno).
    destruct (decide (v ∈ tokens (Val a))) as [Hin|Hnin].
    + rewrite (Hyes Hin). exists true. split; [done|]. split; [|done].
      intros _. exists [], a, attrs. repeat split; try done.
      by intros x ?%elem_of_nil.
    + destruct (closedValue_decide (Val a)) as [Hclosed|Hopen].
      * rewrite (Hfall Hnin Hclosed). exists b. split; [done|].
        rewrite Hiff. symmetry. by apply Hshift.
      * rewrite (Hno Hnin Hopen). exists false. split; [done|].
        split; [done|].
        intros (pre & a0 & post & Heq & Hk & Hin & Hpre).
        destruct pre as [|a1 pre]; simpl in Heq;
          injection Heq as Hhd Htl; subst; [done|].
        destruct Hopen. apply Hpre; [by left|done].
  - exists b. split; [done|]. rewrite Hiff. symmetry. by apply Hshift.
Qed.

(** C4 (as amended). [attributeIncludesSelector k v] holds of a node exactly
    when some pair of its attribute list has the lower-cased key and a value
    one of whose tokens is [v], and every earlier pair with that key has a
    value that is empty or ends in whitespace. When [v] contains a whitespace
    byte the selector holds of no node. *)
Theorem attributeIncludes_tokens (k v : gostring) (h : gmap loc Node)
    (n : loc) (node : Node) :
  h !! n = Some node →
  ∃ b, attributeIncludesSelector k v h (Some n) = Done b
       ∧ (b = true ↔
          ∃ pre a post, Attr node = pre ++ a :: post ∧ Key a = lower k
                        ∧ v ∈ tokens (Val a)
                        ∧ ∀ x, x ∈ pre → Key x = lower k → closedValue (Val x))
       ∧ ((∃ c, c ∈ v ∧ isSpace c = true) → b = false).
Proof.
  intros Hn. open_selector Hn.
  destruct (includes_scan (lower k) v (Attr node)) as (b & Hrun & Hiff).
  exists b. split; [done|]. split; [done|].
  intros (c & Hc & Hsp). destruct b; [|done].
  destruct (proj1 Hiff eq_refl) as (pre & a & post & _ & _ & Htok & _).
  apply (tokensFrom_spaceFree_tokens _ []) in Htok; [|by constructor].
  rewrite Forall_forall in Htok. specialize (Htok c Hc). congruence.
Qed.

Lemma attributeIncludes_tokens_witness :
  ∃ b, attributeIncludesSelector (str "Title") (str "foo")
         (single "p" "title" "tot foo bar") (Some 1%positive) = Done b
       ∧ (b = true ↔
          ∃ pre a post,
            [mkAttribute (str "title") (str "tot foo bar")] = pre ++ a :: post
            ∧ Key a = lower (str "Title")
            ∧ str "foo" ∈ tokens (Val a)
            ∧ ∀ x, x ∈ pre → Key x = lower (str "Title") → closedValue (Val x))
       ∧ ((∃ c, c ∈ str "foo" ∧ isSpace c = true) → b = false).
Proof.
  apply (attributeIncludes_tokens (str "Title") (str "foo")
           (single "p" "title" "tot foo bar") 1%positive
           (mkNode None [] ElementNode (str "p")
              [mkAttribute (str "title") (str "tot foo bar")])).
  reflexivity.
Defined.

(** C4 as stated fails: the node has a pair with key "class" whose value has
    the token "b", yet the selector answers false, because the earlier pair
    with that key ended the scan. *)
Lemma attributeIncludes_later_pair_unseen :
  attributeIncludesSelector (str "class") (str "b")
    (twice "class" "a" "b") (Some 1%positive) = Done false
  ∧ twice "class" "a" "b" !! 1%positive
    = Some (mkNode None [] ElementNode (str "p")
              [mkAttribute (str "class") (str "a");
               mkAttribute (str "class") (str "b")])
  ∧ ∃ a, a ∈ [mkAttribute (str "class") (str "a");
              mkAttribute (str "class") (str "b")]
         ∧ Key a = lower (str "class") ∧ str "b" ∈ tokens (Val a).
Proof.
  split; [vm_compute; reflexivity|]. split; [reflexivity|].
  exists (mkAttribute (str "class") (str "b")). split; [|split].
  - apply list_elem_of_In. right. left. reflexivity.
  - vm_compute. reflexivity.
  - apply list_elem_of_In. left. reflexivity.
Qed.

(** C10 (as amended). Let [a] be the first pair with the lower-cased key,
    [pre] the pairs before it and [post] the pairs after it. The equals,
    dash-match, prefix, suffix and substring selectors answer with the
    comparison made on the value of [a], whatever [post] holds. The includes
    selector answers true when [v] is a token of that value, answers false
    when it is not and the value is neither empty nor ended by whitespace,
    and only in the remaining case goes on to scan [post]. *)
Theorem duplicate_keys_first_pair (k v : gostring) (h : gmap loc Node)
    (n : loc) (node : Node) (pre post : list Attribute) (a : Attribute) :
  h !! n = Some node →
  Attr node = pre ++ a :: post →
  Key a = lower k →
  (∀ x, x ∈ pre → Key x ≠ lower k) →
  attributeEqualsSelector k v h (Some n) = Done (bool_decide (Val a = v))
  ∧ (∃ b, attributeDashmatchSelector k v h (Some n) = Done b
          ∧ (b = true ↔ dashMatches (Val a) v))
  ∧ attributePrefixSelector k v h (Some n) = Done (HasPrefix (Val a) v)
  ∧ attributeSuffixSelector k v h (Some n) = Done (HasSuffix (Val a) v)
  ∧ attributeSubstringSelector k v h (Some n) = Done (Contains (Val a) v)
  ∧ (v ∈ tokens (Val a) →
     attributeIncludesSelector k v h (Some n) = Done true)
  ∧ (v ∉ tokens (Val a) → ¬ closedValue (Val a) →
     attributeIncludesSelector k v h (Some n) = Done false)
  ∧ (v ∉ tokens (Val a) → closedValue (Val a) →
     attributeIncludesSelector k v h (Some n)
     = attributeIncludesSelector k v (<[n := withAttr node post]> h) (Some n)).
Proof.
  intros Hn Hattr Hk Hpre.
  destruct (includesLoop_tokens (length (Val a)) (Val a) v (le_n _))
    as (Hyes & Hfall & Hno).
  split; [|split; [|split; [|split; [|split; [|split; [|split]]]]]].
  - open_selector Hn. rewrite Hattr.
    by apply (rangeLoop_first_returns (lower k) _ pre post a).
  - destruct (dashmatch_value (Val a) v) as (b & Hb & Hiff).
    exists b. split; [|done]. open_selector Hn. rewrite Hattr.
    by apply (rangeLoop_first_returns (lower k) _ pre post a b).
  - open_selector Hn. rewrite Hattr.
    by apply (rangeLoop_first_returns (lower k) _ pre post a).
  - open_selector Hn. rewrite Hattr.
    by apply (rangeLoop_first_returns (lower k) _ pre post a).
  - open_selector Hn. rewrite Hattr.
    by apply (rangeLoop_first_returns (lower k) _ pre post a).
  - intros Hin. open_selector Hn. rewrite Hattr.
    apply (rangeLoop_first_returns (lower k) _ pre post a true); auto.
  - intros Hnin Hopen. open_selector Hn. rewrite Hattr.
    apply (rangeLoop_first_returns (lower k) _ pre post a false); auto.
  - intros Hnin Hclosed.
    assert (Hn' : <[n := withAttr node post]> h !! n = Some (withAttr node post))
      by apply lookup_insert_eq.
    unfold attributeIncludesSelector.
    rewrite (deref_Some _ _ _ Hn), (deref_Some _ _ _ Hn'), toLowerASCII_lower.
    run.
    rewrite Hattr. cbn [withAttr Attr].
    apply (rangeLoop_first_continues (lower k) _ pre post a); auto.
Qed.

Lemma duplicate_keys_first_pair_witness :
  attributeEqualsSelector (str "class") (str "b")
    (twice "class" "a " "b") (Some 1%positive)
  = Done (bool_decide (str "a " = str "b"))
  ∧ (∃ b, attributeDashmatchSelector (str "class") (str "b")
            (twice "class" "a " "b") (Some 1%positive) = Done b
          ∧ (b = true ↔ dashMatches (str "a ") (str "b")))
  ∧ attributePrefixSelector (str "class") (str "b")
      (twice "class" "a " "b") (Some 1%positive)
    = Done (HasPrefix (str "a ") (str "b"))
  ∧ attributeSuffixSelector (str "class") (str "b")
      (twice "class" "a " "b") (Some 1%positive)
    = Done (HasSuffix (str "a ") (str "b"))
  ∧ attributeSubstringSelector (str "class") (str "b")
      (twice "class" "a " "b") (Some 1%positive)
    = Done (Contains (str "a ") (str "b"))
  ∧ (str "b" ∈ tokens (str "a ") →
     attributeIncludesSelector (str "class") (str "b")
       (twice "class" "a " "b") (Some 1%positive) = Done true)
  ∧ (str "b" ∉ tokens (str "a ") → ¬ closedValue (str "a ") →
     attributeIncludesSelector (str "class") (str "b")
       (twice "class" "a " "b") (Some 1%positive) = Done false)
  ∧ (str "b" ∉ tokens (str "a ") → closedValue (str "a ") →
     attributeIncludesSelector (str "class") (str "b")
       (twice "class" "a " "b") (Some 1%positive)
     = attributeIncludesSelector (str "class") (str "b")
         (<[1%positive :=
              withAttr (twiceNode "class" "a " "b")
                [mkAttribute (str "class") (str "b")]]>
            (twice "class" "a " "b"))
         (Some 1%positive)).
Proof.
  apply (duplicate_keys_first_pair (str "class") (str "b")
           (twice "class" "a " "b") 1%positive (twiceNode "class" "a " "b")
           [] [mkAttribute (str "class") (str "b")]
           (mkAttribute (str "class") (str "a "))).
  - reflexivity.
  - reflexivity.
  - vm_compute. reflexivity.
  - intros x Hx. by apply elem_of_nil in Hx.
Defined.

(** C10 as stated fails for the includes selector: the first pair with key
    "class" has the value "a", which holds no token "b"; the scan does not
    go on to the second pair, whose value "b" alone would match. *)
Lemma attributeIncludes_stops_at_open_value :
  attributeIncludesSelector (str "class") (str "b")
    (twice "class" "a" "b") (Some 1%positive) = Done false
  ∧ (str "b" ∉ tokens (str "a"))
  ∧ attributeIncludesSelector (str "class") (str "b")
      (single "p" "class" "b") (Some 1%positive) = Done true.
Proof.
  split; [vm_compute; reflexivity|]. split; [|vm_compute; reflexivity].
  intros Hin. apply list_elem_of_In in Hin.
  vm_compute in Hin. destruct Hin as [Heq|[]]. discriminate Heq.
Qed.

(** ** The positional selector *)

Lemma searchChild_absent (c : list ptr) (n : ptr) (i : nat) :
  n ∉ c → searchChild c n i = (i + length c)%nat.
Proof.
  revert i. induction c as [|x c IH]; intros i Hn; simpl; [lia|].
  rewrite bool_decide_eq_false_2.
  - rewrite IH; [lia|]. intros Hin. apply Hn. by right.
  - intros ->. apply Hn. by left.
Qed.

Lemma searchChild_first (pre post : list ptr) (n : ptr) (i : nat) :
  n ∉ pre → searchChild (pre ++ n :: post) n i = (i + length pre)%nat.
Proof.
  revert i. induction pre as [|x pre IH]; intros i Hn; simpl.
  - rewrite bool_decide_eq_true_2 by done. lia.
  - rewrite bool_decide_eq_false_2.
    + rewrite IH; [lia|]. intros Hin. apply Hn. by right.
    + intros ->. apply Hn. by left.
Qed.

(** C9. A node whose parent does not list it among its children is not
    matched by any positional selector: the search runs to the end of the
    child list and the selector answers false. *)
Theorem nthChild_not_among_children (W : IntSize) (a b : Z) (last : bool)
    (h : gmap loc Node) (n p : loc) (node pnode : Node) :
  h !! n = Some node →
  Parent node = Some p →
  h !! p = Some pnode →
  Some n ∉ Child pnode →
  nthChildSelector W a b last h (Some n) = Done false.
Proof.
  intros Hn Hp Hpn Hnot. unfold nthChildSelector.
  rewrite (deref_Some _ _ _ Hn). simpl. rewrite Hp.
  rewrite (deref_Some _ _ _ Hpn). simpl.
  rewrite searchChild_absent by done. simpl.
  by rewrite decide_True.
Qed.

Lemma nthChild_not_among_children_witness :
  nthChildSelector Int64 2 1 false strayStore (Some 6%positive) = Done false.
Proof.
  apply (nthChild_not_among_children Int64 2 1 false strayStore
           6%positive 1%positive (li 1 "5") olNode).
  - reflexivity.
  - reflexivity.
  - reflexivity.
  - apply (bool_decide_unpack _). vm_compute. exact I.
Defined.

(** The [an+b] test on an [int] that did not overflow. *)
Lemma formula_test (W : IntSize) (a q : Z) :
  a ≠ 0 → minInt W < q <= maxInt W →
  ∃ r, (r0 ← intRem W q a;
        if bool_decide (r0 = 0) then
          q0 ← intQuo W q a; Done (bool_decide (0 <= q0))
        else Done false) = Done r
       ∧ (r = true ↔ ∃ k, 0 <= k ∧ q = k * a).
Proof.
  intros Ha Hq. unfold intRem, intQuo. rewrite !decide_False by done.
  run.
  pose proof (Z.quot_rem' q a) as Hdiv.
  case_bool_decide as Hrem.
  - run.
    rewrite Hrem, Z.add_0_r in Hdiv.
    assert (Hsmall : inInt W (q ÷ a)).
    { pose proof (minInt_maxInt W) as [Hmin Hmax]. unfold inInt. nia. }
    rewrite (wrap_inInt _ _ Hsmall).
    eexists. split; [reflexivity|]. rewrite bool_decide_eq_true. split.
    + intros Hk. exists (q ÷ a). split; [done|]. lia.
    + intros (k & Hk & ->). by rewrite Z.quot_mul.
  - exists false. split; [done|]. split; [done|].
    intros (k & Hk & ->). by rewrite Z.rem_mul in Hrem.
Qed.

(** C1 (as amended). For [int]s [a] and [b] and a node that is for the first
    time at the 1-based place [length pre + 1] of its parent's child list,
    [nthChildSelector a b last] holds exactly when [q], the position (counted
    from the back when [last] is set) minus [b], satisfies the formula:
    [q = 0] when [a = 0], and [q = k * a] for some non-negative [k]
    otherwise; this as long as the subtraction of [b] does not exceed the
    largest [int]. *)
Theorem nthChild_formula (W : IntSize) (a b : Z) (last : bool)
    (h : gmap loc Node) (n p : loc) (node pnode : Node) (pre post : list ptr) :
  h !! n = Some node →
  Parent node = Some p →
  h !! p = Some pnode →
  Child pnode = pre ++ Some n :: post →
  Some n ∉ pre →
  inInt W a → inInt W b →
  len (Child pnode) <= maxInt W →
  position last (len (Child pnode)) (len pre + 1) - b <= maxInt W →
  ∃ r, nthChildSelector W a b last h (Some n) = Done r
       ∧ (r = true ↔
          formulaHolds a (position last (len (Child pnode)) (len pre + 1) - b)).
Proof.
  intros Hn Hp Hpn Hc Hfirst Ha Hb Hcount Hq. unfold nthChildSelector.
  rewrite (deref_Some _ _ _ Hn). simpl. rewrite Hp.
  rewrite (deref_Some _ _ _ Hpn). simpl.
  rewrite Hc in *. rewrite searchChild_first by done. simpl.
  change (Z.of_nat (length pre)) with (len pre).
  rewrite len_app, len_cons in *.
  pose proof (len_nonneg pre) as Hpre. pose proof (len_nonneg post) as Hpost.
  pose proof (minInt_maxInt W) as [Hmin Hmax].
  rewrite decide_False by lia.
  assert (Hpos : (if last then intSub W (len pre + (len post + 1)) (len pre)
                  else intAdd W (len pre) 1)
                 = position last (len pre + (len post + 1)) (len pre + 1)).
  { unfold position, intSub, intAdd, inInt in *.
    destruct last; rewrite wrap_inInt; unfold inInt; lia. }
  rewrite Hpos.
  set (pos := position last (len pre + (len post + 1)) (len pre + 1)) in *.
  assert (Hrange : 1 <= pos <= maxInt W).
  { unfold pos, position. destruct last; lia. }
  assert (Hsub : intSub W pos b = pos - b).
  { unfold intSub. apply wrap_inInt. unfold inInt in *. lia. }
  rewrite !Hsub.
  unfold formulaHolds. case_decide as Hzero.
  - eexists. split; [reflexivity|]. by rewrite bool_decide_eq_true.
  - apply formula_test; [done|]. unfold inInt in Hb. lia.
Qed.

Lemma nthChild_formula_witness :
  ∃ r, nthChildSelector Int64 (-1) 2 false olStore (Some 3%positive) = Done r
       ∧ (r = true ↔
          formulaHolds (-1)
            (position false (len (Child olNode)) (len [Some 2%positive] + 1) - 2)).
Proof.
  apply (nthChild_formula Int64 (-1) 2 false olStore 3%positive 1%positive
           (li 1 "2") olNode [Some 2%positive] [Some 4%positive; Some 5%positive]).
  - reflexivity.
  - reflexivity.
  - reflexivity.
  - reflexivity.
  - apply (bool_decide_unpack _). vm_compute. exact I.
  - vm_compute. split; congruence.
  - vm_compute. split; congruence.
  - vm_compute. congruence.
  - vm_compute. congruence.
Defined.

(** C1 as stated fails where the subtraction of [b] overflows: for the
    formula [n + b] with [b] the least [int], the first item of the list is
    at a position that the formula reaches (with [k] equal to the position
    minus [b]), yet the selector answers false, on 64-bit and on 32-bit
    [int]s alike. *)
Lemma nthChild_offset_overflow :
  olStore !! 2%positive = Some (li 1 "1")
  ∧ Parent (li 1 "1") = Some 1%positive
  ∧ olStore !! 1%positive = Some olNode
  ∧ Child olNode !! 0%nat = Some (Some 2%positive)
  ∧ nthChildSelector Int64 1 (minInt Int64) false olStore (Some 2%positive)
    = Done false
  ∧ formulaHolds 1 (position false (len (Child olNode)) 1 - minInt Int64)
  ∧ nthChildSelector Int32 1 (minInt Int32) false olStore (Some 2%positive)
    = Done false
  ∧ formulaHolds 1 (position false (len (Child olNode)) 1 - minInt Int32).
Proof.
  assert (Hreach : ∀ q, 0 <= q → formulaHolds 1 q).
  { intros q Hq. unfold formulaHolds. rewrite decide_False by lia.
    exists q. lia. }
  do 4 (split; [reflexivity|]).
  split; [vm_compute; reflexivity|].
  split; [apply Hreach; vm_compute; congruence|].
  split; [vm_compute; reflexivity|].
  apply Hreach. vm_compute. congruence.
Qed.

(** ** [MatchAll]: document order *)

Lemma all2_Forall2 {A B} (f : A → B → bool) (l1 : list A) (l2 : list B) :
  all2 f l1 l2 = true ↔ Forall2 (λ x y, f x y = true) l1 l2.
Proof.
  revert l2. induction l1 as [|x l1 IH]; intros [|y l2]; simpl.
  - split; [constructor|done].
  - split; [done|]. intros H. inversion H.
  - split; [done|]. intros H. inversion H.
  - rewrite andb_true_iff, IH. split.
    + intros [? ?]. by constructor.
    + intros H. inversion H; subst. done.
Qed.

Lemma Forall2_impl_elem {A B} (P Q : A → B → Prop) (l : list A) (k : list B) :
  Forall2 P l k → (∀ x y, x ∈ l → P x y → Q x y) → Forall2 Q l k.
Proof.
  induction 1 as [|x y l k Hxy _ IH]; intros Himp; constructor.
  - apply Himp; [by left|done].
  - apply IH. intros x' y' Hx'. apply Himp. by right.
Qed.

Lemma shape_RNode (h : gmap loc Node) (n : ptr) (r : loc) (kids : list rtree) :
  shape h n (RNode r kids) = true ↔
  n = Some r
  ∧ ∃ node, h !! r = Some node
            ∧ Forall2 (λ k c, shape h c k = true) kids (Child node).
Proof.
  cbn [shape]. rewrite andb_true_iff, bool_decide_eq_true.
  destruct (h !! r) as [node|].
  - rewrite all2_Forall2. split.
    + intros [-> H]. eauto.
    + intros (-> & node' & [= <-] & H). done.
  - split; [by intros [_ ?]|]. by intros (_ & node' & [=] & _).
Qed.

Lemma height_kid (r : loc) (kids : list rtree) (k : rtree) (fuel : nat) :
  k ∈ kids → (height (RNode r kids) ≤ S fuel)%nat → (height k ≤ fuel)%nat.
Proof.
  cbn [height]. intros Hk Hh. apply le_S_n in Hh.
  induction kids as [|k0 kids IH]; [by apply elem_of_nil in Hk|].
  simpl in Hh. apply elem_of_cons in Hk as [->|Hk]; [lia|].
  apply IH; [done|lia].
Qed.

Lemma filter_concat_map {A B} (P : A → Prop) `{!∀ x, Decision (P x)}
    (f : B → list A) (l : list B) :
  filter P (concat (map f l)) = concat (map (λ y, filter P (f y)) l).
Proof.
  induction l as [|y l IH]; [done|]. simpl. by rewrite filter_app, IH.
Qed.

Lemma preorder_kid (r : loc) (kids : list rtree) (k : rtree) (x : ptr) :
  k ∈ kids → x ∈ preorder k → x ∈ preorder (RNode r kids).
Proof.
  intros Hk Hx. cbn [preorder]. right.
  apply list_elem_of_split in Hk as (ks1 & ks2 & ->).
  rewrite map_app, concat_app. simpl.
  apply elem_of_app. right. apply elem_of_app. by left.
Qed.

(** The loop over the children, when each recursive call behaves. *)
Lemma forEach_kids {St} (f : ptr → St → outcome (list ptr * St))
    (P : ptr → Prop) `{!∀ x, Decision (P x)} (step : St → ptr → St)
    (kids : list rtree) (cs res : list ptr) (st : St) :
  Forall2 (λ k c, ∀ st0, f c st0 = Done (filter P (preorder k),
                                         foldl step st0 (preorder k)))
          kids cs →
  forEach (λ '(result, st) child,
             f child st ≫= λ r : list ptr * St, Done (result ++ r.1, r.2))
          cs (res, st)
  = Done (res ++ concat (map (λ k, filter P (preorder k)) kids),
          foldl step st (concat (map preorder kids))).
Proof.
  intros Hall. revert res st.
  induction Hall as [|k c kids cs Hk _ IH]; intros res st; simpl.
  - by rewrite !app_nil_r.
  - rewrite Hk. simpl. rewrite IH. by rewrite foldl_app, <- !app_assoc.
Qed.

(** [MatchAll] on a tree of the store, with fuel for its height, for a
    predicate that answers [sb x] on each node [x] of the tree and moves
    its state by [step]: the matches are the document-order listing
    filtered by [sb], and the state has moved along the document-order
    listing, one step for each node. *)
Lemma MatchAll_st_preorder {St} (s : Effectful St) (sb : ptr → bool)
    (step : St → ptr → St) (h : gmap loc Node) (fuel : nat) (n : ptr)
    (t : rtree) (st : St) :
  shape h n t = true →
  (∀ x, x ∈ preorder t → ∀ st0, s h x st0 = Done (sb x, step st0 x)) →
  (height t ≤ fuel)%nat →
  MatchAll_st fuel s h n st
  = Done (filter (λ x, sb x = true) (preorder t), foldl step st (preorder t)).
Proof.
  revert n t st.
  induction fuel as [|fuel IH]; intros n [r kids] st Hshape Htot Hh.
  { simpl in Hh. lia. }
  apply shape_RNode in Hshape as (-> & node & Hnode & Hkids).
  cbn [MatchAll_st]. rewrite (Htot (Some r)) by (cbn [preorder]; by left).
  run.
  rewrite (deref_Some _ _ _ Hnode).
  run.
  rewrite (forEach_kids _ (λ x, sb x = true) step kids).
  - cbn [preorder foldl]. rewrite filter_cons, filter_concat_map.
    destruct (sb (Some r)); by rewrite ?decide_True, ?decide_False by done.
  - apply (Forall2_impl_elem _ _ _ _ Hkids).
    intros k c Hk Hkc st0. apply IH; [done| |].
    + intros x Hx. apply Htot. by apply (preorder_kid r kids k).
    + by apply (height_kid r kids).
Qed.

(** The same for a pure predicate. *)
Lemma MatchAll_preorder (s : Selector) (sb : ptr → bool)
    (h : gmap loc Node) (fuel : nat) (n : ptr) (t : rtree) :
  shape h n t = true →
  (∀ x, x ∈ preorder t → s h x = Done (sb x)) →
  (height t ≤ fuel)%nat →
  MatchAll fuel s h n = Done (filter (λ x, sb x = true) (preorder t)).
Proof.
  intros Hshape Htot Hh. unfold MatchAll.
  rewrite (MatchAll_st_preorder (pureSel s) sb (λ st _, st) h fuel n t);
    [done|done| |done].
  intros x Hx st0. unfold pureSel. by rewrite (Htot x Hx).
Qed.

(** The list a [tracing] predicate builds along a listing. *)
Lemma foldl_snoc {A} (l0 l : list A) :
  foldl (λ log x, log ++ [x]) l0 l = l0 ++ l.
Proof.
  revert l0. induction l as [|x l IH]; intros l0; simpl.
  - by rewrite app_nil_r.
  - by rewrite IH, <- app_assoc.
Qed.

Lemma before_inside {A} (x y : A) (l p q : list A) :
  before x y l → before x y (p ++ l ++ q).
Proof.
  intros (l1 & l2 & l3 & ->). exists (p ++ l1), l2, (l3 ++ q).
  repeat (rewrite <- app_assoc || rewrite <- app_comm_cons). done.
Qed.

Lemma concat_kid (kids : list rtree) (k : rtree) (x : ptr) :
  k ∈ kids → x ∈ preorder k → x ∈ concat (map preorder kids).
Proof.
  intros Hk Hx. apply list_elem_of_split in Hk as (ks1 & ks2 & ->).
  rewrite map_app, concat_app. simpl.
  apply elem_of_app. right. apply elem_of_app. by left.
Qed.

(** In the filtered document-order listing a kept ancestor comes before a
    kept descendant. *)
Lemma filter_ancestor_before (P : ptr → Prop) `{!∀ x, Decision (P x)}
    (t : rtree) (a b : ptr) :
  ancestorIn t a b → P a → P b → before a b (filter P (preorder t)).
Proof.
  intros (r & kids & k & -> & Hsub & Hk & Hb) Pa Pb.
  induction Hsub as [|r' kids' k' Hk' _ IH].
  - cbn [preorder]. rewrite filter_cons, decide_True by done.
    assert (Hin : b ∈ filter P (concat (map preorder kids))).
    { apply list_elem_of_filter. split; [done|]. by apply (concat_kid kids k). }
    apply list_elem_of_split in Hin as (l2 & l3 & ->).
    by exists [], l2, l3.
  - apply list_elem_of_split in Hk' as (ks1 & ks2 & ->).
    cbn [preorder]. rewrite map_app, concat_app. simpl.
    change (Some r' :: ?l) with ([Some r'] ++ l).
    rewrite !filter_app, (app_assoc (filter P [Some r'])).
    by apply before_inside.
Qed.

Lemma filter_eq_absent {A} `{EqDecision A} (l : list A) (x : A) :
  x ∉ l → filter (λ y, y = x) l = [].
Proof.
  induction l as [|y l IH]; [done|]. intros Hx.
  rewrite filter_cons, decide_False.
  - apply IH. intros Hin. apply Hx. by right.
  - intros ->. apply Hx. by left.
Qed.

Lemma NoDup_once {A} `{EqDecision A} (l : list A) (x : A) :
  NoDup l → x ∈ l → length (filter (λ y, y = x) l) = 1%nat.
Proof.
  induction 1 as [|y l Hy _ IH]; [by intros ?%elem_of_nil|].
  rewrite filter_cons. intros [->|Hx]%elem_of_cons.
  - rewrite decide_True by done. by rewrite filter_eq_absent.
  - rewrite decide_False; [by apply IH|]. intros ->. done.
Qed.

(** C2. On a tree of the store, with fuel for its height and a predicate
    that answers on every node of the tree, [MatchAll] returns the
    document-order listing of the tree filtered by the predicate. The root
    comes first when it matches, and the results of the children follow in
    the order of the child list, whether it matches or not. A predicate
    that records its own applications ([tracing s]) comes out of the same
    traversal with the document-order listing as its record: it was applied
    along that listing, hence once to each node of a tree whose nodes are
    distinct. A matched ancestor comes before each of its matched
    descendants. *)
Theorem MatchAll_document_order (s : Selector) (sb : ptr → bool)
    (h : gmap loc Node) (fuel : nat) (n : loc) (t : rtree) :
  shape h (Some n) t = true →
  (∀ x, x ∈ preorder t → s h x = Done (sb x)) →
  (height t ≤ fuel)%nat →
  MatchAll fuel s h (Some n) = Done (filter (λ x, sb x = true) (preorder t))
  ∧ (∃ node rs,
       h !! n = Some node
       ∧ Forall2 (λ c r, MatchAll (pred fuel) s h c = Done r) (Child node) rs
       ∧ MatchAll fuel s h (Some n)
         = Done ((if sb (Some n) then [Some n] else []) ++ concat rs))
  ∧ (∃ calls,
       MatchAll_st fuel (tracing s) h (Some n) []
       = Done (filter (λ x, sb x = true) (preorder t), calls)
       ∧ calls = preorder t
       ∧ (NoDup (preorder t) →
          ∀ x, x ∈ preorder t → length (filter (λ y, y = x) calls) = 1%nat))
  ∧ (∀ a b, ancestorIn t a b → sb a = true → sb b = true →
            before a b (filter (λ x, sb x = true) (preorder t))).
Proof.
  intros Hshape Htot Hh.
  pose proof (MatchAll_preorder s sb h fuel _ t Hshape Htot Hh) as Hres.
  split; [done|]. split; [|split].
  - destruct t as [r kids]. destruct fuel as [|fuel]; [simpl in Hh; lia|].
    apply shape_RNode in Hshape as ([= ->] & node & Hnode & Hkids).
    exists node, (map (λ k, filter (λ x, sb x = true) (preorder k)) kids).
    split; [done|]. split.
    + apply Forall2_fmap_r, Forall2_flip.
      apply (Forall2_impl_elem _ _ _ _ Hkids).
      intros k c Hk Hkc. cbn [pred].
      apply (MatchAll_preorder s sb h fuel c k); [done| |].
      * intros x Hx. apply Htot. by apply (preorder_kid r kids k).
      * by apply (height_kid r kids).
    + rewrite Hres. cbn [preorder].
      rewrite filter_cons, filter_concat_map.
      destruct (sb (Some r)); by rewrite ?decide_True, ?decide_False by done.
  - exists (preorder t). split; [|split; [done|]].
    + rewrite (MatchAll_st_preorder (tracing s) sb (λ log x, log ++ [x])
                 h fuel _ t); [|done| |done].
      * by rewrite foldl_snoc.
      * intros x Hx log. unfold tracing. by rewrite (Htot x Hx).
    + intros Hnd x Hx. by apply NoDup_once.
  - intros a b Hanc Ha Hb. by apply filter_ancestor_before.
Qed.

Lemma MatchAll_document_order_witness :
  MatchAll 2 (nthChildSelector Int64 2 1 false) olStore (Some 1%positive)
  = Done (filter (λ x, oddItems x = true) (preorder olTree))
  ∧ (∃ node rs,
       olStore !! 1%positive = Some node
       ∧ Forall2 (λ c r, MatchAll (pred 2) (nthChildSelector Int64 2 1 false)
                           olStore c = Done r) (Child node) rs
       ∧ MatchAll 2 (nthChildSelector Int64 2 1 false) olStore (Some 1%positive)
         = Done ((if oddItems (Some 1%positive) then [Some 1%positive] else [])
                 ++ concat rs))
  ∧ (∃ calls,
       MatchAll_st 2 (tracing (nthChildSelector Int64 2 1 false)) olStore
         (Some 1%positive) []
       = Done (filter (λ x, oddItems x = true) (preorder olTree), calls)
       ∧ calls = preorder olTree
       ∧ (NoDup (preorder olTree) →
          ∀ x, x ∈ preorder olTree →
               length (filter (λ y, y = x) calls) = 1%nat))
  ∧ (∀ a b, ancestorIn olTree a b → oddItems a = true → oddItems b = true →
            before a b (filter (λ x, oddItems x = true) (preorder olTree))).
Proof.
  apply (MatchAll_document_order (nthChildSelector Int64 2 1 false) oddItems
           olStore 2 1%positive olTree).
  - reflexivity.
  - intros x Hx. apply list_elem_of_In in Hx. simpl in Hx.
    destruct Hx as [<-|[<-|[<-|[<-|[<-|[]]]]]]; vm_compute; reflexivity.
  - simpl. lia.
Defined.

(** ** Matching does not panic *)

Lemma closedStore_parent (h : gmap loc Node) (n p : loc) (node : Node) :
  closedStore h → h !! n = Some node → Parent node = Some p →
  is_Some (h !! p).
Proof.
  intros Hclosed Hn Hp. specialize (Hclosed n node Hn). cbv beta in Hclosed.
  rewrite Hp in Hclosed. destruct Hclosed as [[=]|Hsome]. done.
Qed.

Lemma rangeLoop_total {A R} (body : A → outcome (ctl R)) (l : list A) (d : R) :
  (∀ a, ∃ c, body a = Done c) → ∃ r, rangeLoop body l d = Done r.
Proof.
  intros Hbody. induction l as [|a l [r IH]]; [by exists d|].
  rewrite rangeLoop_cons. destruct (Hbody a) as [[r'|] ->]; simpl; eauto.
Qed.

Lemma keyed_total (key : gostring) (g : Attribute → outcome (ctl bool))
    (attrs : list Attribute) :
  (∀ a, ∃ c, g a = Done c) →
  ∃ r, rangeLoop (λ a, if bool_decide (Key a = key) then g a
                       else Done Continue) attrs false = Done r.
Proof.
  intros Hg. apply rangeLoop_total. intros a.
  case_bool_decide; [apply Hg|by eexists].
Qed.

Lemma includesLoop_total (s v : gostring) :
  ∃ c, includesLoop (length s) s v = Done c.
Proof.
  destruct (includesLoop_tokens (length s) s v (le_n _)) as (Hyes & Hfall & Hno).
  destruct (decide (v ∈ tokens s)) as [Hin|Hnin]; [eauto|].
  destruct (closedValue_decide s); eauto.
Qed.

(** The nodes of a tree of the store exist in the store. *)
Lemma shape_allocated (h : gmap loc Node) (k : nat) (n : ptr) (t : rtree) :
  (height t ≤ k)%nat → shape h n t = true →
  ∀ x, x ∈ preorder t → ∃ l node, x = Some l ∧ h !! l = Some node.
Proof.
  revert n t. induction k as [|k IH]; intros n [r kids] Hh Hshape x Hx.
  { simpl in Hh. lia. }
  apply shape_RNode in Hshape as (-> & node & Hnode & Hkids).
  cbn [preorder] in Hx. apply elem_of_cons in Hx as [->|Hx]; [eauto|].
  apply list_elem_of_In, in_concat in Hx as (xs & Hin & Hxs).
  apply in_map_iff in Hin as (kid & <- & Hkid).
  apply list_elem_of_In in Hxs, Hkid.
  apply list_elem_of_lookup in Hkid as [i Hi].
  destruct (Forall2_lookup_l _ _ _ _ _ Hkids Hi) as (c & _ & Hc).
  apply (IH c kid); [|done|done].
  apply (height_kid r kids); [|done]. apply list_elem_of_lookup. eauto.
Qed.

(** Every compiled predicate answers on every node of a closed store. *)
Lemma compiled_total (W : IntSize) (s : Selector) (h : gmap loc Node) :
  compiled W s → closedStore h →
  ∀ n node, h !! n = Some node → ∃ b, s h (Some n) = Done b.
Proof.
  intros Hs Hclosed.
  induction Hs as [|tag|key|key val|key val|key val|key val|key val|key val
                   |a b _ IHa _ IHb|a _ IHa|a b last _ _];
    intros n node Hn.
  - by exists true.
  - rewrite (typeSelector_run _ _ _ _ Hn). by eexists.
  - open_selector Hn. apply keyed_total. intros a. by eexists.
  - open_selector Hn. apply keyed_total. intros a. by eexists.
  - open_selector Hn. apply keyed_total. intros a. apply includesLoop_total.
  - open_selector Hn. apply keyed_total. intros a.
    destruct (dashmatch_value (Val a) val) as (b & Hb & _). eauto.
  - open_selector Hn. apply keyed_total. intros a. by eexists.
  - open_selector Hn. apply keyed_total. intros a. by eexists.
  - open_selector Hn. apply keyed_total. intros a. by eexists.
  - unfold intersectionSelector. destruct (IHa n node Hn) as [x ->]. simpl.
    destruct x; [apply (IHb n node Hn)|by eexists].
  - unfold negatedSelector. destruct (IHa n node Hn) as [x ->]. by eexists.
  - unfold nthChildSelector. rewrite (deref_Some _ _ _ Hn).
    run.
    destruct (Parent node) as [p|] eqn:Hp; [|by eexists].
    destruct (closedStore_parent h n p node Hclosed Hn Hp) as [pnode Hpn].
    rewrite (deref_Some _ _ _ Hpn).
    run. cbv zeta.
    case_decide; [by eexists|]. case_decide; [by eexists|].
    unfold intRem, intQuo. rewrite !decide_False by done.
    run.
    case_bool_decide; by eexists.
Qed.

(** C8. In a closed store every compiled predicate answers with a boolean
    on every node, [MatchAll] with fuel for the height of a tree returns a
    list, and a positional selector answers false on a node without
    parent. *)
Theorem matching_never_fails (W : IntSize) (s : Selector) (h : gmap loc Node) :
  compiled W s → closedStore h →
  (∀ n node, h !! n = Some node → ∃ b, s h (Some n) = Done b)
  ∧ (∀ n t fuel, shape h (Some n) t = true → (height t ≤ fuel)%nat →
                 ∃ l, MatchAll fuel s h (Some n) = Done l)
  ∧ (∀ a b last n node, h !! n = Some node → Parent node = None →
                        nthChildSelector W a b last h (Some n) = Done false).
Proof.
  intros Hs Hclosed. split; [by apply (compiled_total W)|]. split.
  - intros n t fuel Hshape Hh.
    set (sb := λ x : ptr, match s h x with Done b => b | _ => false end).
    eexists. apply (MatchAll_preorder s sb h fuel _ t); [done| |done].
    intros x Hx.
    destruct (shape_allocated h _ _ t (le_n _) Hshape x Hx)
      as (l & node & -> & Hl).
    destruct (compiled_total W s h Hs Hclosed l node Hl) as [b Hb].
    unfold sb. by rewrite Hb.
  - intros a b last n node Hn Hp. unfold nthChildSelector.
    rewrite (deref_Some _ _ _ Hn). simpl. by rewrite Hp.
Qed.

Lemma matching_never_fails_witness :
  (∀ n node, olStore !! n = Some node →
     ∃ b, intersectionSelector (typeSelector (str "li"))
            (nthChildSelector Int64 (-1) 2 true) olStore (Some n) = Done b)
  ∧ (∀ n t fuel, shape olStore (Some n) t = true → (height t ≤ fuel)%nat →
       ∃ l, MatchAll fuel
              (intersectionSelector (typeSelector (str "li"))
                 (nthChildSelector Int64 (-1) 2 true)) olStore (Some n)
            = Done l)
  ∧ (∀ a b last n node, olStore !! n = Some node → Parent node = None →
       nthChildSelector Int64 a b last olStore (Some n) = Done false).
Proof.
  apply (matching_never_fails Int64
           (intersectionSelector (typeSelector (str "li"))
              (nthChildSelector Int64 (-1) 2 true)) olStore).
  - apply compiled_intersection; [apply compiled_type|].
    apply compiled_nthChild; vm_compute; split; congruence.
  - apply (bool_decide_unpack _). vm_compute. exact I.
Defined.

(** ** [Compile]: trailing input *)

(** C3. When the sequence parses without error and the cursor stops before
    the end of the selector, [Compile] returns no predicate, and an error
    that carries the selector and the number of bytes after the cursor. *)
Theorem Compile_left_over (W : IntSize)
    (parse : parser → parser * (option Selector * option error))
    (sel : gostring) (p' : parser) (compiled : option Selector) :
  parse (mkParser sel 0) = (p', (compiled, None)) →
  0 <= parser_i p' < len sel →
  len sel <= maxInt W →
  Compile W parse sel
  = (None, Some (LeftOver sel (len (drop (Z.to_nat (parser_i p')) sel)))).
Proof.
  intros Hparse Hi Hlen. unfold Compile. rewrite Hparse.
  rewrite decide_True by lia. do 3 f_equal.
  pose proof (minInt_maxInt W) as [Hmin Hmax].
  unfold intSub. rewrite wrap_inInt by (unfold inInt; lia).
  unfold len in *. rewrite length_drop. lia.
Qed.

Lemma Compile_left_over_witness :
  Compile Int64 parseTypeOnly (str "div foo")
  = (None, Some (LeftOver (str "div foo") 4)).
Proof.
  apply (Compile_left_over Int64 parseTypeOnly (str "div foo")
           (mkParser (str "div foo") 3) (Some (typeSelector (str "div")))).
  - reflexivity.
  - vm_compute. split; congruence.
  - vm_compute. congruence.
Defined.

(** ** The cases of the test suite *)

(** [li:nth-child] with [odd], [even], [-n+2] and [3n+1] on three items. *)
Example nth_child_three_items :
  MatchAll 2 (liNth 2 1 false) ol3Store (Some 1%positive)
  = Done [Some 2%positive; Some 4%positive]
  ∧ MatchAll 2 (liNth 2 0 false) ol3Store (Some 1%positive)
    = Done [Some 3%positive]
  ∧ MatchAll 2 (liNth (-1) 2 false) ol3Store (Some 1%positive)
    = Done [Some 2%positive; Some 3%positive]
  ∧ MatchAll 2 (liNth 3 1 false) ol3Store (Some 1%positive)
    = Done [Some 2%positive].
Proof. repeat split; vm_compute; reflexivity. Qed.

(** [li:nth-last-child] with the same formulas on four items. *)
Example nth_last_child_four_items :
  MatchAll 2 (liNth 2 1 true) olStore (Some 1%positive)
  = Done [Some 3%positive; Some 5%positive]
  ∧ MatchAll 2 (liNth 2 0 true) olStore (Some 1%positive)
    = Done [Some 2%positive; Some 4%positive]
  ∧ MatchAll 2 (liNth (-1) 2 true) olStore (Some 1%positive)
    = Done [Some 4%positive; Some 5%positive]
  ∧ MatchAll 2 (liNth 3 1 true) olStore (Some 1%positive)
    = Done [Some 2%positive; Some 5%positive].
Proof. repeat split; vm_compute; reflexivity. Qed.

(** The attribute operators: [[lang|="en"]], [[title~=foo]],
    [[title~="hello world"]], [[title^="foo"]], [[title$="bar"]],
    [[title*="bar"]] and the class of [div.teST]. *)
Example attribute_operators :
  map (λ v, attributeDashmatchSelector (str "lang") (str "en")
              (single "p" "lang" v) (Some 1%positive))
      ["en"; "en-gb"; "enough"; "fr-en"]%string
  = [Done true; Done true; Done false; Done false]
  ∧ attributeIncludesSelector (str "title") (str "foo")
      (single "p" "title" "tot foo bar") (Some 1%positive) = Done true
  ∧ attributeIncludesSelector (str "title") (str "hello world")
      (single "p" "title" "hello world") (Some 1%positive) = Done false
  ∧ map (λ v, attributePrefixSelector (str "title") (str "foo")
                (single "p" "title" v) (Some 1%positive))
        ["foobar"; "barfoo"]%string
    = [Done true; Done false]
  ∧ map (λ v, attributeSuffixSelector (str "title") (str "bar")
                (single "p" "title" v) (Some 1%positive))
        ["foobar"; "barfoo"]%string
    = [Done true; Done false]
  ∧ attributeSubstringSelector (str "title") (str "bar")
      (single "p" "title" "foobarufoo") (Some 1%positive) = Done true
  ∧ attributeIncludesSelector (str "class") (str "teST")
      (single "div" "class" "test") (Some 1%positive) = Done false.
Proof. repeat split; vm_compute; reflexivity. Qed.

(** * Further properties of the code *)

(** ** [toLowerASCII] *)

Lemma lowerByte_not_upper (c : ascii) : isUpper (lowerByte c) = false.
Proof. destruct c as [[] [] [] [] [] [] [] []]; reflexivity. Qed.

Lemma lower_upperFree (s : gostring) : upperFree (lower s).
Proof.
  unfold lower. apply Forall_forall. intros c Hc.
  apply list_elem_of_In, in_map_iff in Hc as (c0 & <- & _).
  apply lowerByte_not_upper.
Qed.

Lemma lower_fixed (s : gostring) : lower s = s ↔ upperFree s.
Proof.
  split.
  - intros <-. apply lower_upperFree.
  - unfold lower. induction 1 as [|c s Hc _ IH]; [done|]. simpl.
    unfold lowerByte at 1. by rewrite Hc, IH.
Qed.

(** X1. [toLowerASCII] keeps the length, and changes a byte only when it is an
    ASCII capital letter, to which it adds ['a' - 'A']. *)
Theorem toLowerASCII_bytewise (s : gostring) :
  length (toLowerASCII s) = length s
  ∧ ∀ i, toLowerASCII s !! i
         = (λ c, if isUpper c then byteAdd c caseGap else c) <$> s !! i.
Proof.
  rewrite toLowerASCII_lower. unfold lower. split.
  - apply length_map.
  - intros i. apply list_lookup_fmap.
Qed.

(** X2. The result of [toLowerASCII] holds no ASCII capital letter, and lowering
    it again changes nothing. *)
Theorem toLowerASCII_idempotent (s : gostring) :
  upperFree (toLowerASCII s)
  ∧ toLowerASCII (toLowerASCII s) = toLowerASCII s.
Proof.
  rewrite !toLowerASCII_lower. split; [apply lower_upperFree|].
  apply lower_fixed, lower_upperFree.
Qed.

(** X3. [toLowerASCII] returns its argument unchanged exactly when the argument
    holds no ASCII capital letter; in that case the loop never makes the
    copy ([b] stays [nil]). *)
Theorem toLowerASCII_fixed_points (s : gostring) :
  (toLowerASCII s = s ↔ upperFree s)
  ∧ (toLowerASCII_loop (length s) 0 s None = None ↔ upperFree s).
Proof.
  split; [rewrite toLowerASCII_lower; apply lower_fixed|].
  assert (Hloop : ∀ k i b,
    (i + k = length s)%nat →
    (toLowerASCII_loop k i s b = None ↔ b = None ∧ upperFree (drop i s))).
  { induction k as [|k IH]; intros i b Hlen; simpl.
    - rewrite drop_ge by lia. split; [by intros ->|by intros [-> _]].
    - destruct (lookup_lt_is_Some_2 s i) as [c Hc]; [lia|].
      rewrite Hc, (drop_S _ _ _ Hc), Forall_cons, IH by lia.
      destruct (isUpper c); split.
      + by intros [[=] _].
      + by intros (_ & [=] & _).
      + by intros [-> ?].
      + by intros (-> & _ & ?). }
  rewrite (Hloop (length s) 0%nat None) by done. rewrite drop_0.
  split; [by intros [_ ?]|done].
Qed.

(** ** Case folding in the selectors *)

Ltac unfold_selectors :=
  cbv beta zeta delta
    [typeSelector attributeExistsSelector attributeEqualsSelector
     attributeIncludesSelector attributeDashmatchSelector
     attributePrefixSelector attributeSuffixSelector
     attributeSubstringSelector].

(** X4. Two tags, or two keys, that differ only in the case of ASCII letters
    give the same type selector and the same attribute selectors: on every
    store and pointer the answers (panics included) are equal. *)
Theorem selectors_fold_their_argument (k1 k2 v : gostring) :
  eqFold k1 k2 →
  (∀ h n, typeSelector k1 h n = typeSelector k2 h n)
  ∧ Forall2 (λ s1 s2 : Selector, ∀ h n, s1 h n = s2 h n)
            (attributeSelectors k1 v) (attributeSelectors k2 v).
Proof.
  unfold eqFold. intros Hfold. split.
  - intros h n. unfold_selectors. by rewrite !toLowerASCII_lower, Hfold.
  - unfold attributeSelectors.
    repeat apply Forall2_cons_2; try apply Forall2_nil_2;
      intros h n; unfold_selectors; by rewrite !toLowerASCII_lower, Hfold.
Qed.

Lemma selectors_fold_their_argument_witness :
  (∀ h n, typeSelector (str "DiV") h n = typeSelector (str "div") h n)
  ∧ Forall2 (λ s1 s2 : Selector, ∀ h n, s1 h n = s2 h n)
            (attributeSelectors (str "DiV") (str "x"))
            (attributeSelectors (str "div") (str "x")).
Proof.
  apply (selectors_fold_their_argument (str "DiV") (str "div") (str "x")).
  reflexivity.
Defined.

Lemma hasUpper_not_lower (s t : gostring) : hasUpper s → s ≠ lower t.
Proof.
  intros Hup ->. pose proof (lower_upperFree t) as Hfree.
  apply Exists_exists in Hup as (c & Hc & Hupper).
  rewrite Forall_forall in Hfree. specialize (Hfree c Hc). congruence.
Qed.

(** X5. An element whose stored tag name holds an ASCII capital letter is
    matched by no type selector, whatever tag the selector was built from. *)
Theorem typeSelector_stored_capital (t : gostring) (h : gmap loc Node)
    (n : loc) (node : Node) :
  h !! n = Some node →
  hasUpper (Data node) →
  typeSelector t h (Some n) = Done false.
Proof.
  intros Hn Hup. rewrite (typeSelector_run _ _ _ _ Hn).
  rewrite (bool_decide_eq_false_2 (Data node = lower t)).
  - by rewrite andb_false_r.
  - by apply hasUpper_not_lower.
Qed.

Lemma typeSelector_stored_capital_witness :
  typeSelector (str "Div") (single "Div" "class" "abc") (Some 1%positive)
  = Done false.
Proof.
  apply (typeSelector_stored_capital (str "Div") (single "Div" "class" "abc")
           1%positive
           (mkNode None [] ElementNode (str "Div")
              [mkAttribute (str "class") (str "abc")])).
  - reflexivity.
  - apply Exists_cons_hd. reflexivity.
Defined.

(** X6. A node all of whose attribute keys hold an ASCII capital letter is
    matched by none of the seven attribute selectors, whatever key and value
    they were built from. *)
Theorem attribute_stored_capital (k v : gostring) (h : gmap loc Node)
    (n : loc) (node : Node) :
  h !! n = Some node →
  Forall (λ a, hasUpper (Key a)) (Attr node) →
  Forall (λ s : Selector, s h (Some n) = Done false) (attributeSelectors k v).
Proof.
  intros Hn Hup.
  assert (Hno : ∀ a, a ∈ Attr node → Key a ≠ lower k).
  { intros a Ha. apply hasUpper_not_lower.
    rewrite Forall_forall in Hup. by apply Hup. }
  unfold attributeSelectors.
  repeat apply Forall_cons_2; try apply Forall_nil_2;
    open_selector Hn; by apply rangeLoop_absent.
Qed.

Lemma attribute_stored_capital_witness :
  Forall (λ s : Selector,
            s (single "p" "Title" "x") (Some 1%positive) = Done false)
         (attributeSelectors (str "Title") (str "x")).
Proof.
  apply (attribute_stored_capital (str "Title") (str "x")
           (single "p" "Title" "x") 1%positive
           (mkNode None [] ElementNode (str "p")
              [mkAttribute (str "Title") (str "x")])).
  - reflexivity.
  - apply Forall_cons_2; [|apply Forall_nil_2].
    apply Exists_cons_hd. reflexivity.
Defined.

(** ** The attribute selectors, one by one *)

(** A loop body that returns at the first pair with the key decides by that
    pair. *)
Lemma keyed_first (key : gostring) (f : Attribute → bool)
    (attrs : list Attribute) :
  rangeLoop (λ a, if bool_decide (Key a = key) then Done (Return (f a))
                  else Done Continue) attrs false
  = Done (from_option f false (firstAttr key attrs)).
Proof.
  destruct (firstAttr key attrs) as [a|] eqn:Hfirst; simpl.
  - apply firstAttr_Some in Hfirst as (pre & post & -> & Hk & Hno).
    by apply (rangeLoop_first_returns key _ pre post a).
  - apply rangeLoop_absent. by apply firstAttr_None.
Qed.

(** X7. [attributeExistsSelector k] holds of a node exactly when some pair of
    its attribute list has the lower-cased [k] as its key; the values are
    not looked at. *)
Theorem attributeExists_some_pair (k : gostring) (h : gmap loc Node)
    (n : loc) (node : Node) :
  h !! n = Some node →
  ∃ b, attributeExistsSelector k h (Some n) = Done b
       ∧ (b = true ↔ ∃ a, a ∈ Attr node ∧ Key a = lower k).
Proof.
  intros Hn. open_selector Hn.
  rewrite (keyed_first (lower k) (λ _, true)).
  eexists. split; [reflexivity|].
  destruct (firstAttr (lower k) (Attr node)) as [a|] eqn:Hfirst; simpl.
  - apply firstAttr_Some in Hfirst as (pre & post & Heq & Hk & _).
    split; [|done]. intros _. exists a. split; [|done].
    rewrite Heq. apply elem_of_app. right. by left.
  - split; [done|]. intros (a & Ha & Hk).
    by destruct (proj1 (firstAttr_None _ _) Hfirst a Ha).
Qed.

Lemma attributeExists_some_pair_witness :
  ∃ b, attributeExistsSelector (str "TITLE") (single "p" "title" "")
         (Some 1%positive) = Done b
       ∧ (b = true ↔
          ∃ a, a ∈ [mkAttribute (str "title") (str "")]
               ∧ Key a = lower (str "TITLE")).
Proof.
  apply (attributeExists_some_pair (str "TITLE") (single "p" "title" "")
           1%positive
           (mkNode None [] ElementNode (str "p")
              [mkAttribute (str "title") (str "")])).
  reflexivity.
Defined.

Lemma keyed_first_iff (key : gostring) (f : Attribute → bool)
    (P : Attribute → Prop) (attrs : list Attribute) :
  (∀ a, f a = true ↔ P a) →
  ∃ b, rangeLoop (λ a, if bool_decide (Key a = key) then Done (Return (f a))
                       else Done Continue) attrs false = Done b
       ∧ (b = true ↔ ∃ a, firstAttr key attrs = Some a ∧ P a).
Proof.
  intros Hf. rewrite keyed_first. eexists. split; [reflexivity|].
  destruct (firstAttr key attrs) as [a|]; simpl.
  - rewrite Hf. split; [eauto|]. by intros (a' & [= <-] & ?).
  - split; [done|]. by intros (a' & [=] & _).
Qed.

(** X8. [attributeEqualsSelector k v] holds of a node exactly when the first
    pair with the lower-cased key has the value [v], byte for byte. *)
Theorem attributeEquals_first_pair (k v : gostring) (h : gmap loc Node)
    (n : loc) (node : Node) :
  h !! n = Some node →
  ∃ b, attributeEqualsSelector k v h (Some n) = Done b
       ∧ (b = true ↔
          ∃ a, firstAttr (lower k) (Attr node) = Some a ∧ Val a = v).
Proof.
  intros Hn. open_selector Hn.
  apply (keyed_first_iff _ (λ a, bool_decide (Val a = v))).
  intros a. apply bool_decide_eq_true.
Qed.

Lemma attributeEquals_first_pair_witness :
  ∃ b, attributeEqualsSelector (str "Title") (str "foo")
         (single "p" "title" "foo") (Some 1%positive) = Done b
       ∧ (b = true ↔
          ∃ a, firstAttr (lower (str "Title"))
                 [mkAttribute (str "title") (str "foo")] = Some a
               ∧ Val a = str "foo").
Proof.
  apply (attributeEquals_first_pair (str "Title") (str "foo")
           (single "p" "title" "foo") 1%positive
           (mkNode None [] ElementNode (str "p")
              [mkAttribute (str "title") (str "foo")])).
  reflexivity.
Defined.

(** X9. [attributePrefixSelector k v] holds of a node exactly when the value of
    the first pair with the lower-cased key is [v] followed by anything. *)
Theorem attributePrefix_first_pair (k v : gostring) (h : gmap loc Node)
    (n : loc) (node : Node) :
  h !! n = Some node →
  ∃ b, attributePrefixSelector k v h (Some n) = Done b
       ∧ (b = true ↔
          ∃ a, firstAttr (lower k) (Attr node) = Some a
               ∧ ∃ rest, Val a = v ++ rest).
Proof.
  intros Hn. open_selector Hn.
  apply (keyed_first_iff _ (λ a, HasPrefix (Val a) v)).
  intros a. apply HasPrefix_spec.
Qed.

Lemma attributePrefix_first_pair_witness :
  ∃ b, attributePrefixSelector (str "title") (str "foo")
         (single "p" "title" "foobar") (Some 1%positive) = Done b
       ∧ (b = true ↔
          ∃ a, firstAttr (lower (str "title"))
                 [mkAttribute (str "title") (str "foobar")] = Some a
               ∧ ∃ rest, Val a = str "foo" ++ rest).
Proof.
  apply (attributePrefix_first_pair (str "title") (str "foo")
           (single "p" "title" "foobar") 1%positive
           (mkNode None [] ElementNode (str "p")
              [mkAttribute (str "title") (str "foobar")])).
  reflexivity.
Defined.

(** X10. [attributeSuffixSelector k v] holds of a node exactly when the value of
    the first pair with the lower-cased key is anything followed by [v]. *)
Theorem attributeSuffix_first_pair (k v : gostring) (h : gmap loc Node)
    (n : loc) (node : Node) :
  h !! n = Some node →
  ∃ b, attributeSuffixSelector k v h (Some n) = Done b
       ∧ (b = true ↔
          ∃ a, firstAttr (lower k) (Attr node) = Some a
               ∧ ∃ rest, Val a = rest ++ v).
Proof.
  intros Hn. open_selector Hn.
  apply (keyed_first_iff _ (λ a, HasSuffix (Val a) v)).
  intros a. apply HasSuffix_spec.
Qed.

Lemma attributeSuffix_first_pair_witness :
  ∃ b, attributeSuffixSelector (str "title") (str "bar")
         (single "p" "title" "foobar") (Some 1%positive) = Done b
       ∧ (b = true ↔
          ∃ a, firstAttr (lower (str "title"))
                 [mkAttribute (str "title") (str "foobar")] = Some a
               ∧ ∃ rest, Val a = rest ++ str "bar").
Proof.
  apply (attributeSuffix_first_pair (str "title") (str "bar")
           (single "p" "title" "foobar") 1%positive
           (mkNode None [] ElementNode (str "p")
              [mkAttribute (str "title") (str "foobar")])).
  reflexivity.
Defined.

(** X11. [attributeSubstringSelector k v] holds of a node exactly when [v] occurs
    somewhere in the value of the first pair with the lower-cased key. *)
Theorem attributeSubstring_first_pair (k v : gostring) (h : gmap loc Node)
    (n : loc) (node : Node) :
  h !! n = Some node →
  ∃ b, attributeSubstringSelector k v h (Some n) = Done b
       ∧ (b = true ↔
          ∃ a, firstAttr (lower k) (Attr node) = Some a
               ∧ ∃ l r, Val a = l ++ v ++ r).
Proof.
  intros Hn. open_selector Hn.
  apply (keyed_first_iff _ (λ a, Contains (Val a) v)).
  intros a. apply Contains_spec.
Qed.

Lemma attributeSubstring_first_pair_witness :
  ∃ b, attributeSubstringSelector (str "title") (str "bar")
         (single "p" "title" "foobarufoo") (Some 1%positive) = Done b
       ∧ (b = true ↔
          ∃ a, firstAttr (lower (str "title"))
                 [mkAttribute (str "title") (str "foobarufoo")] = Some a
               ∧ ∃ l r, Val a = l ++ str "bar" ++ r).
Proof.
  apply (attributeSubstring_first_pair (str "title") (str "bar")
           (single "p" "title" "foobarufoo") 1%positive
           (mkNode None [] ElementNode (str "p")
              [mkAttribute (str "title") (str "foobarufoo")])).
  reflexivity.
Defined.

Lemma rangeLoop_ext {A R} (body1 body2 : A → outcome (ctl R)) (l : list A)
    (d : R) :
  (∀ a, body1 a = body2 a) → rangeLoop body1 l d = rangeLoop body2 l d.
Proof.
  intros Hext. induction l as [|a l IH]; [done|].
  by rewrite !rangeLoop_cons, Hext, IH.
Qed.

(** X12. With the empty string as value, the prefix, suffix and substring
    selectors test nothing but the presence of the key: on every store and
    pointer each answers as [attributeExistsSelector] does. *)
Theorem empty_value_tests_presence (k : gostring) (h : gmap loc Node)
    (n : ptr) :
  attributePrefixSelector k [] h n = attributeExistsSelector k h n
  ∧ attributeSuffixSelector k [] h n = attributeExistsSelector k h n
  ∧ attributeSubstringSelector k [] h n = attributeExistsSelector k h n.
Proof.
  assert (Hp : ∀ s : gostring, HasPrefix s [] = true).
  { intros s. apply HasPrefix_spec. by exists s. }
  assert (Hs : ∀ s : gostring, HasSuffix s [] = true).
  { intros s. apply HasSuffix_spec. exists s. by rewrite app_nil_r. }
  assert (Hc : ∀ s : gostring, Contains s [] = true).
  { intros s. apply Contains_spec. by exists [], s. }
  unfold_selectors.
  destruct (deref h n) as [node| |]; [|done|done]. run.
  repeat split; apply rangeLoop_ext; intros a;
    by rewrite ?Hp, ?Hs, ?Hc.
Qed.

(** X13. How the operators compare on one node: a match of the equals selector is
    a match of the dash-match and suffix selectors; a dash-match is a prefix
    match; a prefix or suffix match is a substring match; and a match of the
    equals selector is a match of the includes selector when the value asked
    for is not empty and holds no whitespace. *)
Theorem attribute_operators_ordered (k v : gostring) (h : gmap loc Node)
    (n : loc) (node : Node) :
  h !! n = Some node →
  (attributeEqualsSelector k v h (Some n) = Done true →
   attributeDashmatchSelector k v h (Some n) = Done true)
  ∧ (attributeDashmatchSelector k v h (Some n) = Done true →
     attributePrefixSelector k v h (Some n) = Done true)
  ∧ (attributePrefixSelector k v h (Some n) = Done true →
     attributeSubstringSelector k v h (Some n) = Done true)
  ∧ (attributeEqualsSelector k v h (Some n) = Done true →
     attributeSuffixSelector k v h (Some n) = Done true)
  ∧ (attributeSuffixSelector k v h (Some n) = Done true →
     attributeSubstringSelector k v h (Some n) = Done true)
  ∧ (attributeEqualsSelector k v h (Some n) = Done true →
     v ≠ [] → spaceFree v →
     attributeIncludesSelector k v h (Some n) = Done true).
Proof.
  intros Hn.
  destruct (firstAttr (lower k) (Attr node)) as [a|] eqn:Hfirst.
  - pose proof Hfirst as Hsplit.
    apply firstAttr_Some in Hsplit as (pre & post & Hattr & Hk & Hno).
    destruct (dashmatch_value (Val a) v) as (d & Hd & Hdash).
    assert (Hrun_dash : attributeDashmatchSelector k v h (Some n) = Done d).
    { open_selector Hn. rewrite Hattr.
      by apply (rangeLoop_first_returns (lower k) _ pre post a d). }
    assert (Hrun_eq : attributeEqualsSelector k v h (Some n)
                      = Done (bool_decide (Val a = v))).
    { open_selector Hn. by rewrite keyed_first, Hfirst. }
    assert (Hrun_pre : attributePrefixSelector k v h (Some n)
                       = Done (HasPrefix (Val a) v)).
    { open_selector Hn. by rewrite keyed_first, Hfirst. }
    assert (Hrun_suf : attributeSuffixSelector k v h (Some n)
                       = Done (HasSuffix (Val a) v)).
    { open_selector Hn. by rewrite keyed_first, Hfirst. }
    assert (Hrun_sub : attributeSubstringSelector k v h (Some n)
                       = Done (Contains (Val a) v)).
    { open_selector Hn. by rewrite keyed_first, Hfirst. }
    rewrite Hrun_dash, Hrun_eq, Hrun_pre, Hrun_suf, Hrun_sub.
    split; [|split; [|split; [|split; [|split]]]].
    + intros [= Heq%bool_decide_eq_true]. f_equal. apply Hdash. by left.
    + intros [= ->]. f_equal. apply HasPrefix_spec.
      destruct (proj1 Hdash eq_refl) as [->|[rest ->]]; [|eauto].
      exists []. by rewrite app_nil_r.
    + intros [= [rest Hv]%HasPrefix_spec]. f_equal. apply Contains_spec.
      by exists [], rest.
    + intros [= Heq%bool_decide_eq_true]. f_equal. apply HasSuffix_spec.
      by exists [].
    + intros [= [rest Hv]%HasSuffix_spec]. f_equal. apply Contains_spec.
      exists rest, []. by rewrite app_nil_r.
    + intros [= Heq%bool_decide_eq_true] Hne Hfree.
      open_selector Hn. rewrite Hattr.
      apply (rangeLoop_first_returns (lower k) _ pre post a true); [done|done|].
      apply (includesLoop_tokens (length (Val a)) (Val a) v (le_n _)).
      rewrite Heq. unfold tokens. rewrite tokensFrom_spaceFree by done.
      simpl. destruct v; [done|]. by left.
  - pose proof (proj1 (firstAttr_None _ _) Hfirst) as Hno.
    assert (He : attributeEqualsSelector k v h (Some n) = Done false)
      by (open_selector Hn; by apply rangeLoop_absent).
    assert (Hd : attributeDashmatchSelector k v h (Some n) = Done false)
      by (open_selector Hn; by apply rangeLoop_absent).
    assert (Hp : attributePrefixSelector k v h (Some n) = Done false)
      by (open_selector Hn; by apply rangeLoop_absent).
    assert (Hs : attributeSuffixSelector k v h (Some n) = Done false)
      by (open_selector Hn; by apply rangeLoop_absent).
    rewrite He, Hd, Hp, Hs. repeat split; by intros [=].
Qed.

Lemma attribute_operators_ordered_witness :
  attributeEqualsSelector (str "lang") (str "en")
    (single "p" "lang" "en") (Some 1%positive) = Done true
  ∧ attributeDashmatchSelector (str "lang") (str "en")
      (single "p" "lang" "en") (Some 1%positive) = Done true
  ∧ attributeSubstringSelector (str "lang") (str "en")
      (single "p" "lang" "en") (Some 1%positive) = Done true
  ∧ attributeIncludesSelector (str "lang") (str "en")
      (single "p" "lang" "en") (Some 1%positive) = Done true.
Proof.
  destruct (attribute_operators_ordered (str "lang") (str "en")
              (single "p" "lang" "en") 1%positive
              (mkNode None [] ElementNode (str "p")
                 [mkAttribute (str "lang") (str "en")]) eq_refl)
    as (Hdash & Hpre & Hsub & _ & _ & Hinc).
  assert (He : attributeEqualsSelector (str "lang") (str "en")
                 (single "p" "lang" "en") (Some 1%positive) = Done true)
    by (vm_compute; reflexivity).
  split; [exact He|]. split; [exact (Hdash He)|].
  split; [exact (Hsub (Hpre (Hdash He)))|].
  apply (Hinc He); [discriminate|].
  repeat apply Forall_cons_2; try apply Forall_nil_2; reflexivity.
Defined.

(** ** The combinators *)

(** X14. Intersection is associative: on every store and pointer the two
    groupings give the same outcome, panics included. *)
Theorem intersection_associative (a b c : Selector) (h : gmap loc Node)
    (n : ptr) :
  intersectionSelector (intersectionSelector a b) c h n
  = intersectionSelector a (intersectionSelector b c) h n.
Proof.
  unfold intersectionSelector.
  destruct (a h n) as [[]| |]; simpl; [|done..].
  by destruct (b h n) as [[]| |].
Qed.

(** X15. Intersection evaluates its second predicate only when the first holds:
    where the first answers false the intersection answers false, even if the
    second would panic there; and where both answer, the answer is their
    conjunction, in either order. *)
Theorem intersection_short_circuit (a b : Selector) (h : gmap loc Node)
    (n : ptr) :
  (a h n = Done false → intersectionSelector a b h n = Done false)
  ∧ (∀ x y, a h n = Done x → b h n = Done y →
            intersectionSelector a b h n = Done (x && y)
            ∧ intersectionSelector b a h n = Done (x && y)).
Proof.
  unfold intersectionSelector. split.
  - by intros ->.
  - intros x y -> ->. simpl. by destruct x, y.
Qed.

(** X16. Negating twice gives the predicate back, and a predicate never holds
    together with its negation. *)
Theorem negation_involutive (a : Selector) (h : gmap loc Node) (n : ptr) :
  negatedSelector (negatedSelector a) h n = a h n
  ∧ intersectionSelector a (negatedSelector a) h n ≠ Done true.
Proof.
  unfold negatedSelector, intersectionSelector.
  destruct (a h n) as [[]| |]; by simpl.
Qed.

Lemma intersection_short_circuit_witness :
  intersectionSelector (typeSelector (str "li")) panicking
    (single "p" "class" "a") (Some 1%positive) = Done false.
Proof.
  apply (intersection_short_circuit (typeSelector (str "li")) panicking
           (single "p" "class" "a") (Some 1%positive)).
  vm_compute. reflexivity.
Defined.

(** ** [MatchAll]: what it does not survive *)


Lemma MatchAll_Done (fuel : nat) (s : Selector) (h : gmap loc Node) (n : ptr)
    (l : list ptr) :
  MatchAll fuel s h n = Done l →
  ∃ r, MatchAll_st fuel (pureSel s) h n () = Done r.
Proof.
  unfold MatchAll.
  destruct (MatchAll_st fuel (pureSel s) h n ()) as [r| |]; [eauto|done..].
Qed.

(** When the loop over the children completes, every child was matched. *)
Lemma forEach_Done_inv {St} (f : ptr → St → outcome (list ptr * St))
    (cs : list ptr) (st out : list ptr * St) :
  forEach (λ '(result, st) child,
             f child st ≫= λ r : list ptr * St, Done (result ++ r.1, r.2))
          cs st
  = Done out →
  ∀ c, c ∈ cs → ∃ st0 r, f c st0 = Done r.
Proof.
  revert st. induction cs as [|c0 cs IH]; intros [res st] Hrun c Hc.
  { by apply elem_of_nil in Hc. }
  cbn [forEach] in Hrun.
  destruct (f c0 st) as [[r0 st0]| |] eqn:Hc0; [|done..].
  apply elem_of_cons in Hc as [->|Hc]; [eauto|].
  revert Hrun. run. intros Hrun. by apply (IH _ Hrun).
Qed.

(** A completed [MatchAll] has completed, with one unit of fuel less, on
    each child of its node. *)
Lemma MatchAll_st_children {St} (fuel : nat) (s : Effectful St)
    (h : gmap loc Node) (n : loc) (node : Node) (st : St)
    (r : list ptr * St) :
  MatchAll_st fuel s h (Some n) st = Done r →
  h !! n = Some node →
  ∃ fuel', fuel = S fuel'
           ∧ ∀ c, c ∈ Child node →
                  ∃ st' r', MatchAll_st fuel' s h c st' = Done r'.
Proof.
  intros Hrun Hn. destruct fuel as [|fuel]; [done|]. exists fuel.
  split; [done|]. cbn [MatchAll_st] in Hrun.
  destruct (s h (Some n) st) as [[b st0]| |]; [|done..]. revert Hrun. run.
  rewrite (deref_Some _ _ _ Hn). run.
  apply forEach_Done_inv.
Qed.




(** X19. [MatchAll] returns no list, with any amount of fuel, when a cycle of
    child pointers can be reached from its node: the recursion of the source
    does not end. *)
Theorem MatchAll_cycle (fuel : nat) (s : Selector) (h : gmap loc Node)
    (n m : loc) (l : list ptr) :
  rtc (childOf h) n m →
  tc (childOf h) m m →
  MatchAll fuel s h (Some n) ≠ Done l.
Proof.
  intros Hreach Hcycle [r Hr]%MatchAll_Done. revert Hr.
  generalize (() : unit) as st. revert n r Hreach.
  induction fuel as [|fuel IH]; intros n r Hreach st Hr; [done|].
  assert (Hstep : ∃ y, childOf h n y ∧ rtc (childOf h) y m).
  { destruct Hreach as [m|n y m Hny Hym]; [|eauto].
    inversion Hcycle as [? ? Hmm|? y ? Hmy Hym]; subst.
    - exists m. split; [done|]. apply rtc_refl.
    - exists y. split; [done|]. by apply tc_rtc. }
  destruct Hstep as (y & (node & Hn & Hy) & Hym).
  destruct (MatchAll_st_children _ _ _ _ _ _ _ Hr Hn)
    as (fuel' & [= <-] & Hkids).
  destruct (Hkids (Some y) Hy) as (st' & r' & Hr').
  by apply (IH y r' Hym st').
Qed.

Lemma MatchAll_cycle_witness :
  MatchAll 1000 matchEverything cyclicStore (Some 1%positive) ≠ Done [].
Proof.
  assert (H15 : childOf cyclicStore 1 5).
  { exists olNode. split; [reflexivity|].
    apply list_elem_of_In. right. right. right. left. reflexivity. }
  assert (H51 : childOf cyclicStore 5 1).
  { exists (withChild (li 1 "4") [Some 1%positive]). split; [reflexivity|].
    apply list_elem_of_In. left. reflexivity. }
  apply (MatchAll_cycle 1000 matchEverything cyclicStore 1%positive 1%positive).
  - apply rtc_refl.
  - exact (tc_l _ _ _ _ H15 (tc_once _ _ _ H51)).
Defined.

(** ** [MatchAll] and the combinators *)

Lemma filter_andb {A} (f g : A → bool) (l : list A) :
  filter (λ x, f x && g x = true) l
  = filter (λ x, g x = true) (filter (λ x, f x = true) l).
Proof.
  induction l as [|x l IH]; [done|].
  rewrite !filter_cons.
  repeat case_decide; rewrite ?filter_cons; repeat case_decide;
    destruct (f x), (g x); simpl in *; try done; by rewrite IH.
Qed.

Lemma filter_negb_perm {A} (f : A → bool) (l : list A) :
  filter (λ x, f x = true) l ++ filter (λ x, negb (f x) = true) l ≡ₚ l.
Proof.
  induction l as [|x l IH]; [done|].
  rewrite !filter_cons.
  repeat case_decide; destruct (f x); simpl in *; try done.
  - by rewrite IH.
  - rewrite <- Permutation_middle. by rewrite IH.
Qed.

(** X20. Matching with an intersection is matching with its first predicate and
    then keeping the nodes on which the second holds; the second predicate
    needs to answer only on the nodes the first one matched. *)
Theorem MatchAll_intersection (a b : Selector) (sa sb : ptr → bool)
    (h : gmap loc Node) (fuel : nat) (n : loc) (t : rtree) :
  shape h (Some n) t = true →
  (∀ x, x ∈ preorder t → a h x = Done (sa x)) →
  (∀ x, x ∈ preorder t → sa x = true → b h x = Done (sb x)) →
  (height t ≤ fuel)%nat →
  ∃ la, MatchAll fuel a h (Some n) = Done la
        ∧ MatchAll fuel (intersectionSelector a b) h (Some n)
          = Done (filter (λ x, sb x = true) la).
Proof.
  intros Hshape Ha Hb Hh.
  exists (filter (λ x, sa x = true) (preorder t)). split.
  - by apply (MatchAll_preorder a sa h fuel _ t).
  - rewrite (MatchAll_preorder (intersectionSelector a b)
               (λ x, sa x && sb x) h fuel _ t); [|done| |done].
    + by rewrite filter_andb.
    + intros x Hx. unfold intersectionSelector. rewrite (Ha x Hx). simpl.
      destruct (sa x) eqn:Hsa; [|done]. by apply Hb.
Qed.

Lemma MatchAll_intersection_witness :
  ∃ la, MatchAll 2 (typeSelector (str "li")) olStore (Some 1%positive) = Done la
        ∧ MatchAll 2 (intersectionSelector (typeSelector (str "li"))
                        (nthChildSelector Int64 2 1 false))
            olStore (Some 1%positive)
          = Done (filter (λ x, oddItems x = true) la).
Proof.
  apply (MatchAll_intersection (typeSelector (str "li"))
           (nthChildSelector Int64 2 1 false)
           (λ x, bool_decide (x ≠ Some 1%positive)) oddItems
           olStore 2 1%positive olTree).
  - reflexivity.
  - intros x Hx. apply list_elem_of_In in Hx. simpl in Hx.
    destruct Hx as [<-|[<-|[<-|[<-|[<-|[]]]]]]; vm_compute; reflexivity.
  - intros x Hx _. apply list_elem_of_In in Hx. simpl in Hx.
    destruct Hx as [<-|[<-|[<-|[<-|[<-|[]]]]]]; vm_compute; reflexivity.
  - simpl. lia.
Defined.

(** X21. A predicate and its negation split the tree: every node is in exactly
    one of the two results of [MatchAll]. *)
Theorem MatchAll_negated_complement (s : Selector) (sb : ptr → bool)
    (h : gmap loc Node) (fuel : nat) (n : loc) (t : rtree) :
  shape h (Some n) t = true →
  (∀ x, x ∈ preorder t → s h x = Done (sb x)) →
  (height t ≤ fuel)%nat →
  ∃ ls ln, MatchAll fuel s h (Some n) = Done ls
           ∧ MatchAll fuel (negatedSelector s) h (Some n) = Done ln
           ∧ ls ++ ln ≡ₚ preorder t
           ∧ ∀ x, x ∈ ls → x ∉ ln.
Proof.
  intros Hshape Hs Hh.
  exists (filter (λ x, sb x = true) (preorder t)),
         (filter (λ x, negb (sb x) = true) (preorder t)).
  split; [|split; [|split]].
  - by apply (MatchAll_preorder s sb h fuel _ t).
  - apply (MatchAll_preorder (negatedSelector s)
             (λ x, negb (sb x)) h fuel _ t); [done| |done].
    intros x Hx. unfold negatedSelector. by rewrite (Hs x Hx).
  - apply filter_negb_perm.
  - intros x [Hx _]%list_elem_of_filter [Hx' _]%list_elem_of_filter.
    rewrite Hx in Hx'. done.
Qed.

Lemma MatchAll_negated_complement_witness :
  ∃ ls ln,
    MatchAll 2 (nthChildSelector Int64 2 1 false) olStore (Some 1%positive)
    = Done ls
    ∧ MatchAll 2 (negatedSelector (nthChildSelector Int64 2 1 false))
        olStore (Some 1%positive) = Done ln
    ∧ ls ++ ln ≡ₚ preorder olTree
    ∧ ∀ x, x ∈ ls → x ∉ ln.
Proof.
  apply (MatchAll_negated_complement (nthChildSelector Int64 2 1 false)
           oddItems olStore 2 1%positive olTree).
  - reflexivity.
  - intros x Hx. apply list_elem_of_In in Hx. simpl in Hx.
    destruct Hx as [<-|[<-|[<-|[<-|[<-|[]]]]]]; vm_compute; reflexivity.
  - simpl. lia.
Defined.

(** ** The positional selector, further *)

(** On a node listed by its parent the selector comes down to the test of
    the formula on the position, seen from the front or from the back. *)
Lemma nthChild_listed (W : IntSize) (a b : Z) (last : bool)
    (h : gmap loc Node) (n p : loc) (node pnode : Node) (pre post : list ptr) :
  h !! n = Some node →
  Parent node = Some p →
  h !! p = Some pnode →
  Child pnode = pre ++ Some n :: post →
  Some n ∉ pre →
  len (Child pnode) <= maxInt W →
  1 <= position last (len (Child pnode)) (len pre + 1) <= maxInt W
  ∧ nthChildSelector W a b last h (Some n)
    = (if decide (a = 0)
       then Done (bool_decide
                    (intSub W (position last (len (Child pnode)) (len pre + 1)) b
                     = 0))
       else
         r ← intRem W
               (intSub W (position last (len (Child pnode)) (len pre + 1)) b) a;
         if bool_decide (r = 0) then
           q ← intQuo W
                 (intSub W (position last (len (Child pnode)) (len pre + 1)) b)
                 a;
           Done (bool_decide (0 <= q))
         else Done false).
Proof.
  intros Hn Hp Hpn Hc Hfirst Hcount. unfold nthChildSelector.
  rewrite (deref_Some _ _ _ Hn). simpl. rewrite Hp.
  rewrite (deref_Some _ _ _ Hpn). simpl.
  rewrite Hc in *. rewrite searchChild_first by done. simpl.
  change (Z.of_nat (length pre)) with (len pre).
  rewrite len_app, len_cons in *.
  pose proof (len_nonneg pre) as Hpre. pose proof (len_nonneg post) as Hpost.
  pose proof (minInt_maxInt W) as [Hmin Hmax].
  rewrite decide_False by lia.
  assert (Hpos : (if last then intSub W (len pre + (len post + 1)) (len pre)
                  else intAdd W (len pre) 1)
                 = position last (len pre + (len post + 1)) (len pre + 1)).
  { unfold position, intSub, intAdd.
    destruct last; rewrite wrap_inInt; unfold inInt; lia. }
  rewrite Hpos. split; [|done].
  unfold position. destruct last; lia.
Qed.

(** X22. With [a = 0] the selector picks one position: for every [int] [b] it
    holds of a listed node exactly when the position of the node is [b];
    the wrap-around of the subtraction does not disturb this case. *)
Theorem nthChild_fixed_position (W : IntSize) (b : Z) (last : bool)
    (h : gmap loc Node) (n p : loc) (node pnode : Node) (pre post : list ptr) :
  h !! n = Some node →
  Parent node = Some p →
  h !! p = Some pnode →
  Child pnode = pre ++ Some n :: post →
  Some n ∉ pre →
  len (Child pnode) <= maxInt W →
  inInt W b →
  nthChildSelector W 0 b last h (Some n)
  = Done (bool_decide (position last (len (Child pnode)) (len pre + 1) = b)).
Proof.
  intros Hn Hp Hpn Hc Hfirst Hcount Hb.
  destruct (nthChild_listed W 0 b last h n p node pnode pre post)
    as [Hpos ->]; try done.
  rewrite decide_True by done. f_equal. apply bool_decide_ext.
  set (pos := position last (len (Child pnode)) (len pre + 1)) in *.
  pose proof (minInt_maxInt W) as [Hmin Hmax].
  pose proof (modulus_eq W) as Hmod.
  unfold intSub, inInt in *.
  destruct (decide (pos - b <= maxInt W)) as [Hle|Hgt].
  - rewrite wrap_inInt by (unfold inInt; lia). lia.
  - rewrite wrap_overflow by lia. lia.
Qed.

Lemma nthChild_fixed_position_witness :
  nthChildSelector Int64 0 (minInt Int64) true olStore (Some 3%positive)
  = Done (bool_decide
            (position true (len (Child olNode)) (len [Some 2%positive] + 1)
             = minInt Int64)).
Proof.
  apply (nthChild_fixed_position Int64 (minInt Int64) true olStore
           3%positive 1%positive (li 1 "2") olNode
           [Some 2%positive] [Some 4%positive; Some 5%positive]).
  - reflexivity.
  - reflexivity.
  - reflexivity.
  - reflexivity.
  - apply (bool_decide_unpack _). vm_compute. exact I.
  - vm_compute. congruence.
  - vm_compute. split; congruence.
Defined.

(** X23. Where the subtraction of [b] overflows, a selector with a positive step
    holds of no listed node, whether or not the position satisfies the
    formula. *)
Theorem nthChild_overflow_positive_step (W : IntSize) (a b : Z) (last : bool)
    (h : gmap loc Node) (n p : loc) (node pnode : Node) (pre post : list ptr) :
  h !! n = Some node →
  Parent node = Some p →
  h !! p = Some pnode →
  Child pnode = pre ++ Some n :: post →
  Some n ∉ pre →
  len (Child pnode) <= maxInt W →
  inInt W b →
  0 < a →
  maxInt W < position last (len (Child pnode)) (len pre + 1) - b →
  nthChildSelector W a b last h (Some n) = Done false.
Proof.
  intros Hn Hp Hpn Hc Hfirst Hcount Hb Ha Hover.
  destruct (nthChild_listed W a b last h n p node pnode pre post)
    as [Hpos ->]; try done.
  set (pos := position last (len (Child pnode)) (len pre + 1)) in *.
  pose proof (minInt_maxInt W) as [Hmin Hmax].
  pose proof (modulus_eq W) as Hmod.
  unfold inInt in Hb.
  assert (Hsub : intSub W pos b = pos - b - 2 ^ intBits W).
  { unfold intSub. apply wrap_overflow. lia. }
  rewrite !Hsub. set (i := pos - b - 2 ^ intBits W) in *.
  assert (Hi : minInt W <= i < 0) by (unfold i; lia).
  rewrite decide_False by lia.
  unfold intRem, intQuo. rewrite !decide_False by lia. run.
  case_bool_decide as Hrem; [|done]. run.
  pose proof (Z.quot_rem' i a) as Hdiv. rewrite Hrem, Z.add_0_r in Hdiv.
  assert (Hq : minInt W <= i ÷ a < 0) by nia.
  rewrite wrap_inInt by (unfold inInt; lia).
  by rewrite bool_decide_eq_false_2 by lia.
Qed.

Lemma nthChild_overflow_positive_step_witness :
  nthChildSelector Int32 3 (minInt Int32 + 1) false olStore (Some 5%positive)
  = Done false.
Proof.
  apply (nthChild_overflow_positive_step Int32 3 (minInt Int32 + 1) false
           olStore 5%positive 1%positive (li 1 "4") olNode
           [Some 2%positive; Some 3%positive; Some 4%positive] []).
  - reflexivity.
  - reflexivity.
  - reflexivity.
  - reflexivity.
  - apply (bool_decide_unpack _). vm_compute. exact I.
  - vm_compute. congruence.
  - vm_compute. split; congruence.
  - lia.
  - vm_compute. reflexivity.
Defined.

Lemma formula_test_decided (W : IntSize) (a q : Z) (P : Prop) `{!Decision P} :
  a ≠ 0 → minInt W < q <= maxInt W →
  (P ↔ ∃ k, 0 <= k ∧ q = k * a) →
  (r0 ← intRem W q a;
   if bool_decide (r0 = 0) then
     q0 ← intQuo W q a; Done (bool_decide (0 <= q0))
   else Done false) = Done (bool_decide P).
Proof.
  intros Ha Hq HP. destruct (formula_test W a q Ha Hq) as (r & -> & Hr).
  f_equal. rewrite <- HP in Hr. destruct r.
  - symmetry. apply bool_decide_eq_true. by apply Hr.
  - symmetry. apply bool_decide_eq_false. intros HPs.
    by apply Hr in HPs.
Qed.

(** X24. [odd] and [even] are complementary: of a node listed by its parent
    exactly one of the formulas [2n+1] and [2n] holds, from the front as
    from the back. *)
Theorem nthChild_odd_even (W : IntSize) (last : bool)
    (h : gmap loc Node) (n p : loc) (node pnode : Node) (pre post : list ptr) :
  h !! n = Some node →
  Parent node = Some p →
  h !! p = Some pnode →
  Child pnode = pre ++ Some n :: post →
  Some n ∉ pre →
  len (Child pnode) <= maxInt W →
  ∃ x, nthChildSelector W 2 1 last h (Some n) = Done x
       ∧ nthChildSelector W 2 0 last h (Some n) = Done (negb x)
       ∧ (x = true ↔
          Z.odd (position last (len (Child pnode)) (len pre + 1)) = true).
Proof.
  intros Hn Hp Hpn Hc Hfirst Hcount.
  destruct (nthChild_listed W 2 1 last h n p node pnode pre post)
    as [Hpos ->]; try done.
  destruct (nthChild_listed W 2 0 last h n p node pnode pre post)
    as [_ ->]; try done.
  set (pos := position last (len (Child pnode)) (len pre + 1)) in *.
  pose proof (minInt_maxInt W) as [Hmin Hmax].
  assert (H1 : intSub W pos 1 = pos - 1)
    by (unfold intSub; apply wrap_inInt; unfold inInt; lia).
  assert (H0 : intSub W pos 0 = pos)
    by (unfold intSub; rewrite wrap_inInt; unfold inInt; lia).
  rewrite !H1, !H0, !decide_False by done.
  rewrite (formula_test_decided W 2 (pos - 1) (Z.odd pos = true)); [|done|lia|].
  - rewrite (formula_test_decided W 2 pos (Z.odd pos = false)); [|done|lia|].
    + exists (bool_decide (Z.odd pos = true)). split; [done|].
      split; [|apply bool_decide_eq_true].
      f_equal. destruct (Z.odd pos); by simpl.
    + rewrite <- Z.negb_even, negb_false_iff, Z.even_spec. split.
      * intros [k ->]. exists k. lia.
      * intros (k & _ & ->). exists k. lia.
  - rewrite Z.odd_spec. split.
    + intros [k ->]. exists k. lia.
    + intros (k & _ & Hk). exists k. lia.
Qed.

Lemma nthChild_odd_even_witness :
  ∃ x, nthChildSelector Int64 2 1 true olStore (Some 3%positive) = Done x
       ∧ nthChildSelector Int64 2 0 true olStore (Some 3%positive)
         = Done (negb x)
       ∧ (x = true ↔
          Z.odd (position true (len (Child olNode)) (len [Some 2%positive] + 1))
          = true).
Proof.
  apply (nthChild_odd_even Int64 true olStore 3%positive 1%positive
           (li 1 "2") olNode [Some 2%positive] [Some 4%positive; Some 5%positive]).
  - reflexivity.
  - reflexivity.
  - reflexivity.
  - reflexivity.
  - apply (bool_decide_unpack _). vm_compute. exact I.
  - vm_compute. congruence.
Defined.

(** X25. For a non-negative [b], the formula [-n+b] holds of the first [b]
    positions and of no other, and the formula [n+b] holds of the positions
    from [b] on. *)
Theorem nthChild_unit_step (W : IntSize) (b : Z) (last : bool)
    (h : gmap loc Node) (n p : loc) (node pnode : Node) (pre post : list ptr) :
  h !! n = Some node →
  Parent node = Some p →
  h !! p = Some pnode →
  Child pnode = pre ++ Some n :: post →
  Some n ∉ pre →
  len (Child pnode) <= maxInt W →
  0 <= b <= maxInt W →
  nthChildSelector W (-1) b last h (Some n)
  = Done (bool_decide (position last (len (Child pnode)) (len pre + 1) <= b))
  ∧ nthChildSelector W 1 b last h (Some n)
    = Done (bool_decide (b <= position last (len (Child pnode)) (len pre + 1))).
Proof.
  intros Hn Hp Hpn Hc Hfirst Hcount Hb.
  destruct (nthChild_listed W (-1) b last h n p node pnode pre post)
    as [Hpos ->]; try done.
  destruct (nthChild_listed W 1 b last h n p node pnode pre post)
    as [_ ->]; try done.
  set (pos := position last (len (Child pnode)) (len pre + 1)) in *.
  pose proof (minInt_maxInt W) as [Hmin Hmax].
  assert (Hsub : intSub W pos b = pos - b)
    by (unfold intSub; apply wrap_inInt; unfold inInt; lia).
  rewrite !Hsub, !decide_False by done. split.
  - apply formula_test_decided; [done|lia|]. split.
    + intros Hle. exists (b - pos). lia.
    + intros (k & Hk & Heq). lia.
  - apply formula_test_decided; [done|lia|]. split.
    + intros Hle. exists (pos - b). lia.
    + intros (k & Hk & Heq). lia.
Qed.

Lemma nthChild_unit_step_witness :
  nthChildSelector Int64 (-1) 2 false olStore (Some 3%positive)
  = Done (bool_decide
            (position false (len (Child olNode)) (len [Some 2%positive] + 1)
             <= 2))
  ∧ nthChildSelector Int64 1 2 false olStore (Some 3%positive)
    = Done (bool_decide
              (2 <= position false (len (Child olNode))
                      (len [Some 2%positive] + 1))).
Proof.
  apply (nthChild_unit_step Int64 2 false olStore 3%positive 1%positive
           (li 1 "2") olNode [Some 2%positive] [Some 4%positive; Some 5%positive]).
  - reflexivity.
  - reflexivity.
  - reflexivity.
  - reflexivity.
  - apply (bool_decide_unpack _). vm_compute. exact I.
  - vm_compute. congruence.
  - vm_compute. split; congruence.
Defined.

(** X26. Counting from the back is counting from the front of the reversed
    list: when the parent lists no child twice, [nth-last-child] answers on
    a node as [nth-child] does in the store where the child list of the
    parent is reversed. *)
Theorem nthChild_last_reverses (W : IntSize) (a b : Z)
    (h : gmap loc Node) (n p : loc) (node pnode : Node) :
  h !! n = Some node →
  Parent node = Some p →
  h !! p = Some pnode →
  NoDup (Child pnode) →
  nthChildSelector W a b true h (Some n)
  = nthChildSelector W a b false
      (<[p := withChild pnode (reverse (Child pnode))]> h) (Some n).
Proof.
  intros Hn Hp Hpn Hnodup.
  set (h' := <[p := withChild pnode (reverse (Child pnode))]> h).
  assert (Hpn' : h' !! p = Some (withChild pnode (reverse (Child pnode))))
    by apply lookup_insert_eq.
  assert (Hn' : ∃ node', h' !! n = Some node' ∧ Parent node' = Some p).
  { destruct (decide (n = p)) as [->|Hne].
    - eexists. split; [exact Hpn'|]. simpl. congruence.
    - exists node. split; [|done]. unfold h'. by rewrite lookup_insert_ne. }
  destruct Hn' as (node' & Hn' & Hp').
  unfold nthChildSelector.
  rewrite (deref_Some _ _ _ Hn), (deref_Some _ _ _ Hn'). simpl.
  rewrite Hp, Hp'.
  rewrite (deref_Some _ _ _ Hpn), (deref_Some _ _ _ Hpn'). simpl.
  destruct (decide (Some n ∈ Child pnode)) as [Hin|Hnin].
  - apply list_elem_of_split in Hin as (pre & post & Hc).
    rewrite Hc in *.
    apply NoDup_app in Hnodup as (_ & Hpre & Hpost).
    apply NoDup_cons in Hpost as [Hpost _].
    assert (Hfirst : Some n ∉ pre).
    { intros Hx. apply (Hpre _ Hx). by left. }
    assert (Hfirst' : Some n ∉ reverse post) by by rewrite elem_of_reverse.
    rewrite reverse_app, reverse_cons, <- app_assoc. simpl.
    rewrite !searchChild_first by done. simpl.
    unfold len. rewrite !length_app, ?length_reverse. simpl.
    rewrite ?length_reverse. rewrite !decide_False by lia.
    assert (Heq : intSub W (Z.of_nat (length pre + S (length post)))
                    (Z.of_nat (length pre))
                  = intAdd W (Z.of_nat (length post)) 1)
      by (unfold intSub, intAdd; f_equal; lia).
    rewrite Heq.
    by rewrite (decide_False
                  (P := Z.of_nat (length post)
                        = Z.of_nat (length post + S (length pre)))) by lia.
  - assert (Hnin' : Some n ∉ reverse (Child pnode)) by by rewrite elem_of_reverse.
    rewrite !searchChild_absent by done. simpl.
    unfold len. rewrite length_reverse.
    by rewrite !decide_True.
Qed.

Lemma nthChild_last_reverses_witness :
  nthChildSelector Int64 3 1 true olStore (Some 3%positive)
  = nthChildSelector Int64 3 1 false
      (<[1%positive := withChild olNode (reverse (Child olNode))]> olStore)
      (Some 3%positive).
Proof.
  apply (nthChild_last_reverses Int64 3 1 olStore 3%positive 1%positive
           (li 1 "2") olNode).
  - reflexivity.
  - reflexivity.
  - reflexivity.
  - apply (bool_decide_unpack _). vm_compute. exact I.
Defined.

(** ** [Compile], case by case *)

(** X27. [Compile] never returns a predicate together with an error. It returns
    the parser's predicate exactly when the parser reported no error and
    left the cursor at or beyond the end of the selector; and an error of
    the parser is passed on unchanged, with no predicate. *)
Theorem Compile_outcomes (W : IntSize)
    (parse : parser → parser * (option Selector * option error))
    (sel : gostring) :
  (∀ s e, Compile W parse sel ≠ (Some s, Some e))
  ∧ (∀ s, Compile W parse sel = (Some s, None) ↔
          ∃ p', parse (mkParser sel 0) = (p', (Some s, None))
                ∧ len sel <= parser_i p')
  ∧ (∀ p' c e, parse (mkParser sel 0) = (p', (c, Some e)) →
               Compile W parse sel = (None, Some e)).
Proof.
  unfold Compile.
  destruct (parse (mkParser sel 0)) as [p' [c [e|]]] eqn:Hparse.
  - split; [done|]. split.
    + intros s. split; [done|]. by intros (p'' & [=] & _).
    + by intros p'' c' e' [= _ _ <-].
  - case_decide as Hi.
    + split; [done|]. split.
      * intros s. split; [done|]. intros (p'' & [= <- <-] & Hle). lia.
      * by intros p'' c' e' [=].
    + split; [by intros s e [= _ ?]|]. split.
      * intros s. split.
        -- intros [= ->]. exists p'. split; [done|lia].
        -- by intros (p'' & [= <- <-] & _).
      * by intros p'' c' e' [=].
Qed.
